(** * Shallow embedding of the spacefalcon staking program (programs/staking)

    The Anchor program is modelled instruction by instruction.  Integers of
    the Rust code (u8, u32, u64, u128, i64) are [Z] values kept in range by
    the checked operations of the source; a [checked_*] operation returns
    [option Z] exactly as in Rust, and [unwrap] turns [None] into a panic,
    which aborts the whole transaction. *)

From Stdlib Require Import ZArith Lia List Bool.
From stdpp Require Import base gmap list.
Import ListNotations.

Open Scope Z_scope.

(** ** Machine integers *)

Definition u32_max : Z := 2 ^ 32 - 1.
Definition u64_max : Z := 2 ^ 64 - 1.
Definition u128_max : Z := 2 ^ 128 - 1.

(** [pub const PRECISION: u128 = u64::MAX as u128;] *)
Definition PRECISION : Z := u64_max.
(** [pub const MIN_DURATION: u64 = 86400;] *)
Definition MIN_DURATION : Z := 86400.

(** Rust's [checked_add], [checked_sub], [checked_mul], [checked_div] on an
    unsigned type whose largest value is [max]. *)
Definition checked_add (max a b : Z) : option Z :=
  if a + b <=? max then Some (a + b) else None.
Definition checked_sub (a b : Z) : option Z :=
  if b <=? a then Some (a - b) else None.
Definition checked_mul (max a b : Z) : option Z :=
  if a * b <=? max then Some (a * b) else None.
Definition checked_div (a b : Z) : option Z :=
  if b =? 0 then None else Some (a / b).

(** [u64::try_from(x)] / [x.try_into()] from an [i64] (or a [u128]). *)
Definition u64_try_from (x : Z) : option Z :=
  if (0 <=? x) && (x <=? u64_max) then Some x else None.

(** [a += b] and [a -= b] on a [u64] outside the checked API: a release
    build without [overflow-checks] wraps modulo 2^64. *)
Definition wrapping_add64 (a b : Z) : Z := (a + b) mod 2 ^ 64.
Definition wrapping_sub64 (a b : Z) : Z := (a - b) mod 2 ^ 64.

(** ** Errors and the result monad *)

(** The program's [ErrorCode] variants used by [lib.rs] and [context.rs]. *)
Inductive ErrorCode :=
| DurationTooShort
| PoolPaused
| AmountMustBeGreaterThanZero
| CannotStakeOrClaimBeforeMaturity
| InsufficientFundUnstake
| FunderAlreadyAuthorized
| MaxFunders
| CannotDeauthorizePoolAuthority
| CannotDeauthorizeMissingAuthority.

(** How an instruction can abort: one of the program's error codes, a
    violated Anchor [constraint = ...] without a custom error, a panic
    ([unwrap] of [None]), an account that cannot be created or loaded,
    or a failure of the SPL token transfer. *)
Inductive Error :=
| Program (e : ErrorCode)
| ConstraintRaw
| Panic
| AccountError
| TokenError.

Inductive res (A : Type) :=
| Ok (a : A)
| Err (e : Error).
Arguments Ok {A} a.
Arguments Err {A} e.

Definition res_bind {A B} (m : res A) (f : A -> res B) : res B :=
  match m with Ok a => f a | Err e => Err e end.

Notation "'let*' x ':=' m 'in' f" := (res_bind m (fun x => f))
  (at level 200, x name, m at level 100, f at level 200).
Notation "'let*' ' p ':=' m 'in' f" := (res_bind m (fun p => f))
  (at level 200, p pattern, m at level 100, f at level 200).

(** [Option::unwrap]: [None] panics. *)
Definition unwrap {A} (o : option A) : res A :=
  match o with Some a => Ok a | None => Err Panic end.

(** [if cond { return Err(e) }] *)
Definition require (b : bool) (e : Error) : res unit :=
  if b then Ok tt else Err e.

(** ** Accounts ([account.rs]) *)

(** A [Pubkey] is a 256-bit value; [Pubkey::default()] is all zeroes. *)
Abbreviation Pubkey := Z.
Definition default_pubkey : Pubkey := 0.

Module Pool.
Record t := mk {
  authority : Pubkey;
  nonce : Z;
  paused : bool;
  staking_mint : Pubkey;
  staking_vault : Pubkey;
  reward_mint : Pubkey;
  reward_vault : Pubkey;
  reward_duration : Z;
  reward_duration_end : Z;
  lock_period : Z;
  last_update_time : Z;
  reward_rate : Z;
  reward_per_token_stored : Z;
  user_stake_count : Z;
  total_staked : Z;
  no_tier : bool;
  funders : list Pubkey
}.

Definition set_paused (b : bool) (p : t) : t :=
  mk p.(authority) p.(nonce) b p.(staking_mint) p.(staking_vault)
     p.(reward_mint) p.(reward_vault) p.(reward_duration) p.(reward_duration_end)
     p.(lock_period) p.(last_update_time) p.(reward_rate) p.(reward_per_token_stored)
     p.(user_stake_count) p.(total_staked) p.(no_tier) p.(funders).
Definition set_reward_duration_end (v : Z) (p : t) : t :=
  mk p.(authority) p.(nonce) p.(paused) p.(staking_mint) p.(staking_vault)
     p.(reward_mint) p.(reward_vault) p.(reward_duration) v
     p.(lock_period) p.(last_update_time) p.(reward_rate) p.(reward_per_token_stored)
     p.(user_stake_count) p.(total_staked) p.(no_tier) p.(funders).
Definition set_last_update_time (v : Z) (p : t) : t :=
  mk p.(authority) p.(nonce) p.(paused) p.(staking_mint) p.(staking_vault)
     p.(reward_mint) p.(reward_vault) p.(reward_duration) p.(reward_duration_end)
     p.(lock_period) v p.(reward_rate) p.(reward_per_token_stored)
     p.(user_stake_count) p.(total_staked) p.(no_tier) p.(funders).
Definition set_reward_rate (v : Z) (p : t) : t :=
  mk p.(authority) p.(nonce) p.(paused) p.(staking_mint) p.(staking_vault)
     p.(reward_mint) p.(reward_vault) p.(reward_duration) p.(reward_duration_end)
     p.(lock_period) p.(last_update_time) v p.(reward_per_token_stored)
     p.(user_stake_count) p.(total_staked) p.(no_tier) p.(funders).
Definition set_reward_per_token_stored (v : Z) (p : t) : t :=
  mk p.(authority) p.(nonce) p.(paused) p.(staking_mint) p.(staking_vault)
     p.(reward_mint) p.(reward_vault) p.(reward_duration) p.(reward_duration_end)
     p.(lock_period) p.(last_update_time) p.(reward_rate) v
     p.(user_stake_count) p.(total_staked) p.(no_tier) p.(funders).
Definition set_user_stake_count (v : Z) (p : t) : t :=
  mk p.(authority) p.(nonce) p.(paused) p.(staking_mint) p.(staking_vault)
     p.(reward_mint) p.(reward_vault) p.(reward_duration) p.(reward_duration_end)
     p.(lock_period) p.(last_update_time) p.(reward_rate) p.(reward_per_token_stored)
     v p.(total_staked) p.(no_tier) p.(funders).
Definition set_total_staked (v : Z) (p : t) : t :=
  mk p.(authority) p.(nonce) p.(paused) p.(staking_mint) p.(staking_vault)
     p.(reward_mint) p.(reward_vault) p.(reward_duration) p.(reward_duration_end)
     p.(lock_period) p.(last_update_time) p.(reward_rate) p.(reward_per_token_stored)
     p.(user_stake_count) v p.(no_tier) p.(funders).
Definition set_funders (v : list Pubkey) (p : t) : t :=
  mk p.(authority) p.(nonce) p.(paused) p.(staking_mint) p.(staking_vault)
     p.(reward_mint) p.(reward_vault) p.(reward_duration) p.(reward_duration_end)
     p.(lock_period) p.(last_update_time) p.(reward_rate) p.(reward_per_token_stored)
     p.(user_stake_count) p.(total_staked) p.(no_tier) v.
End Pool.

Module User.
Record t := mk {
  pool : Pubkey;
  owner : Pubkey;
  reward_per_token_complete : Z;
  reward_per_token_pending : Z;
  balance_staked : Z;
  maturity_time : Z;
  tier : Z;
  nonce : Z
}.

Definition set_reward_per_token_complete (v : Z) (u : t) : t :=
  mk u.(pool) u.(owner) v u.(reward_per_token_pending) u.(balance_staked)
     u.(maturity_time) u.(tier) u.(nonce).
Definition set_reward_per_token_pending (v : Z) (u : t) : t :=
  mk u.(pool) u.(owner) u.(reward_per_token_complete) v u.(balance_staked)
     u.(maturity_time) u.(tier) u.(nonce).
Definition set_balance_staked (v : Z) (u : t) : t :=
  mk u.(pool) u.(owner) u.(reward_per_token_complete) u.(reward_per_token_pending) v
     u.(maturity_time) u.(tier) u.(nonce).
Definition set_maturity_time (v : Z) (u : t) : t :=
  mk u.(pool) u.(owner) u.(reward_per_token_complete) u.(reward_per_token_pending)
     u.(balance_staked) v u.(tier) u.(nonce).
Definition set_tier (v : Z) (u : t) : t :=
  mk u.(pool) u.(owner) u.(reward_per_token_complete) u.(reward_per_token_pending)
     u.(balance_staked) u.(maturity_time) v u.(nonce).
End User.

Arguments Pool.set_paused _ _ /.
Arguments Pool.set_reward_duration_end _ _ /.
Arguments Pool.set_last_update_time _ _ /.
Arguments Pool.set_reward_rate _ _ /.
Arguments Pool.set_reward_per_token_stored _ _ /.
Arguments Pool.set_user_stake_count _ _ /.
Arguments Pool.set_total_staked _ _ /.
Arguments Pool.set_funders _ _ /.
Arguments User.set_reward_per_token_complete _ _ /.
Arguments User.set_reward_per_token_pending _ _ /.
Arguments User.set_balance_staked _ _ /.
Arguments User.set_maturity_time _ _ /.
Arguments User.set_tier _ _ /.

(** ** Reward accounting ([update_rewards] and its helpers in [lib.rs]) *)

(** [last_time_reward_applicable]: [min(unix_timestamp.try_into().unwrap(), end)]. *)
Definition last_time_reward_applicable (reward_duration_end unix_timestamp : Z) : res Z :=
  let* now := unwrap (u64_try_from unix_timestamp) in
  Ok (Z.min now reward_duration_end).

(** [reward_per_token]: the u128 checked chain of the source. *)
Definition reward_per_token (total_staked reward_per_token_stored
    last_time_reward_applicable last_update_time reward_rate : Z) : res Z :=
  if total_staked =? 0 then Ok reward_per_token_stored else
  let* d := unwrap (checked_sub last_time_reward_applicable last_update_time) in
  let* a := unwrap (checked_mul u128_max d reward_rate) in
  let* b := unwrap (checked_mul u128_max a PRECISION) in
  let* c := unwrap (checked_div b total_staked) in
  unwrap (checked_add u128_max reward_per_token_stored c).

(** [earned]: [(balance * (rpt - paid)) / PRECISION + pending], then
    [try_into::<u64>().unwrap()]. *)
Definition earned (balance_staked reward_per_token user_reward_per_token_paid
    user_reward_pending : Z) : res Z :=
  let* d := unwrap (checked_sub reward_per_token user_reward_per_token_paid) in
  let* a := unwrap (checked_mul u128_max balance_staked d) in
  let* b := unwrap (checked_div a PRECISION) in
  let* c := unwrap (checked_add u128_max b user_reward_pending) in
  unwrap (u64_try_from c).

(** [update_rewards(pool, user, total_staked)], with the clock reading [now]
    ([Clock::get().unix_timestamp]). *)
Definition update_rewards (pool : Pool.t) (user : option User.t) (total_staked now : Z)
    : res (Pool.t * option User.t) :=
  let* lt := last_time_reward_applicable pool.(Pool.reward_duration_end) now in
  let* rpt := reward_per_token total_staked pool.(Pool.reward_per_token_stored) lt
                pool.(Pool.last_update_time) pool.(Pool.reward_rate) in
  let pool := Pool.set_last_update_time lt (Pool.set_reward_per_token_stored rpt pool) in
  match user with
  | None => Ok (pool, None)
  | Some u =>
      let* e := earned u.(User.balance_staked) pool.(Pool.reward_per_token_stored)
                  u.(User.reward_per_token_complete) u.(User.reward_per_token_pending) in
      let u := User.set_reward_per_token_pending e u in
      let u := User.set_reward_per_token_complete pool.(Pool.reward_per_token_stored) u in
      Ok (pool, Some u)
  end.

(** ** Tiers ([utils.rs]) *)

(** Modelled from the spec: [constants.rs], which defines [TIER_INFO], is not
    part of the sources; the thresholds of the spec's tier example are used.
    No property below depends on these values. *)
Definition TIER_INFO : list Z := [100; 1000; 10000].

(** The [for (i, x) in TIER_INFO.iter().enumerate()] loop of [get_tier]. *)
Fixpoint get_tier_loop (i : Z) (l : list Z) (amount : Z) : Z :=
  match l with
  | [] => i
  | x :: rest => if amount <? x then i else get_tier_loop (i + 1) rest amount
  end.

Definition get_tier (amount : Z) : Z := get_tier_loop 0 TIER_INFO amount.

(** ** Token program requests

    The instructions ask the SPL token program for transfers (CPIs); these
    requests are returned next to the updated accounts and executed by
    [run_token_instrs] below.  A failing request aborts the transaction. *)
Inductive TokenInstr :=
| Transfer (from to amount authority : Pubkey)
| CloseAccount (account authority : Pubkey).

(** Balances and owners of the SPL token accounts. *)
Record Bank := mkBank {
  balance : Pubkey -> Z;
  token_owner : Pubkey -> Pubkey
}.

Definition upd (f : Pubkey -> Z) (k : Pubkey) (v : Z) : Pubkey -> Z :=
  fun x => if x =? k then v else f x.

(** [spl_token::processor::process_transfer]: the authority must own the
    source, the source must hold [amount]; a self-transfer changes nothing;
    the destination balance is increased with [checked_add]. *)
Definition spl_transfer (b : Bank) (from to amount authority : Pubkey) : res Bank :=
  if negb (b.(token_owner) from =? authority) then Err TokenError else
  if b.(balance) from <? amount then Err TokenError else
  if from =? to then Ok b else
  match checked_add u64_max (b.(balance) to) amount with
  | None => Err TokenError
  | Some nt =>
      Ok (mkBank (upd (upd b.(balance) from (b.(balance) from - amount)) to nt)
                 b.(token_owner))
  end.

(** [process_close_account]: only an empty account may be closed. *)
Definition spl_close_account (b : Bank) (account authority : Pubkey) : res Bank :=
  if negb (b.(token_owner) account =? authority) then Err TokenError else
  if negb (b.(balance) account =? 0) then Err TokenError else Ok b.

Fixpoint run_token_instrs (b : Bank) (l : list TokenInstr) : res Bank :=
  match l with
  | [] => Ok b
  | Transfer from to amount auth :: rest =>
      let* b := spl_transfer b from to amount auth in run_token_instrs b rest
  | CloseAccount acc auth :: rest =>
      let* b := spl_close_account b acc auth in run_token_instrs b rest
  end.

(** ** The instructions ([#[program] pub mod staking])

    Each instruction first evaluates the state constraints of its Anchor
    [Accounts] struct ([context.rs]), in field order, then its body.
    Account identity constraints ([has_one], [seeds], signer checks) are
    taken as satisfied: the arguments are the accounts they designate. *)

Definition initialize_pool (authority pool_nonce staking_mint staking_vault reward_mint
    reward_vault reward_duration lock_period : Z) (no_tier : bool) : res Pool.t :=
  let* _ := require (negb (reward_duration <? MIN_DURATION)) (Program DurationTooShort) in
  Ok (Pool.mk authority pool_nonce false staking_mint staking_vault reward_mint
        reward_vault reward_duration 0 lock_period 0 0 0 0 0 no_tier
        [default_pubkey; default_pubkey; default_pubkey; default_pubkey; default_pubkey]).

(** [CreateUser]: Anchor first creates the [init] account [user] (which
    fails if it already exists), then checks the constraints of the other
    fields: [constraint = !pool.paused @ ErrorCode::PoolPaused] on [pool]. *)
Definition create_user (pool : Pool.t) (user_exists : bool) (pool_key owner bump : Pubkey)
    : res (Pool.t * User.t) :=
  let* _ := require (negb user_exists) AccountError in
  let* _ := require (negb pool.(Pool.paused)) (Program PoolPaused) in
  let user := User.mk pool_key owner 0 0 0 0 0 bump in
  let* c := unwrap (checked_add u32_max pool.(Pool.user_stake_count) 1) in
  Ok (Pool.set_user_stake_count c pool, user).

(** [Pause]: not paused ([PoolPaused]) and [reward_duration_end < now]. *)
Definition pause (pool : Pool.t) (now : Z) : res Pool.t :=
  let* _ := require (negb pool.(Pool.paused)) (Program PoolPaused) in
  let* n := unwrap (u64_try_from now) in
  let* _ := require (pool.(Pool.reward_duration_end) <? n) ConstraintRaw in
  Ok (Pool.set_paused true pool).

(** [Unpause]: [constraint = pool.paused]. *)
Definition unpause (pool : Pool.t) : res Pool.t :=
  let* _ := require pool.(Pool.paused) ConstraintRaw in
  Ok (Pool.set_paused false pool).

Definition stake (pool : Pool.t) (user : User.t) (stake_from_account staking_vault : Pubkey)
    (amount now : Z) : res (Pool.t * User.t * list TokenInstr) :=
  let* _ := require (negb (amount =? 0)) (Program AmountMustBeGreaterThanZero) in
  let* _ := require (negb pool.(Pool.paused)) (Program PoolPaused) in
  let total_staked := pool.(Pool.total_staked) in
  let* '(pool, ou) := update_rewards pool (Some user) total_staked now in
  let user := default user ou in
  let* bal := unwrap (checked_add u64_max user.(User.balance_staked) amount) in
  let user := User.set_balance_staked bal user in
  let* n := unwrap (u64_try_from now) in
  let* m := unwrap (checked_add u64_max n pool.(Pool.lock_period)) in
  let user := User.set_maturity_time m user in
  let user := if negb pool.(Pool.no_tier)
              then User.set_tier (get_tier user.(User.balance_staked)) user else user in
  let xfer := [Transfer stake_from_account staking_vault amount user.(User.owner)] in
  let pool := Pool.set_total_staked (wrapping_add64 pool.(Pool.total_staked) amount) pool in
  Ok (pool, user, xfer).

Definition unstake (pool : Pool.t) (user : User.t) (stake_from_account staking_vault
    pool_signer : Pubkey) (spt_amount now : Z) : res (Pool.t * User.t * list TokenInstr) :=
  let* _ := require (negb (spt_amount =? 0)) (Program AmountMustBeGreaterThanZero) in
  let* n := unwrap (u64_try_from now) in
  let* _ := require (negb (n <? user.(User.maturity_time)))
              (Program CannotStakeOrClaimBeforeMaturity) in
  let* _ := require (negb (user.(User.balance_staked) <? spt_amount))
              (Program InsufficientFundUnstake) in
  let total_staked := pool.(Pool.total_staked) in
  let* '(pool, ou) := update_rewards pool (Some user) total_staked now in
  let user := default user ou in
  let* bal := unwrap (checked_sub user.(User.balance_staked) spt_amount) in
  let user := User.set_balance_staked bal user in
  let user := if negb pool.(Pool.no_tier)
              then User.set_tier (get_tier user.(User.balance_staked)) user else user in
  let pool := Pool.set_total_staked (wrapping_sub64 pool.(Pool.total_staked) spt_amount) pool in
  Ok (pool, user, [Transfer staking_vault stake_from_account spt_amount pool_signer]).

(** [funders.iter().position(|x| *x == k)] *)
Fixpoint position (k : Pubkey) (l : list Pubkey) : option nat :=
  match l with
  | [] => None
  | x :: rest => if x =? k then Some O else option_map S (position k rest)
  end.

Definition authorize_funder (pool : Pool.t) (funder_to_add : Pubkey) : res Pool.t :=
  let* _ := require (negb (funder_to_add =? pool.(Pool.authority)))
              (Program FunderAlreadyAuthorized) in
  let funders := pool.(Pool.funders) in
  let* _ := require (negb (existsb (fun x => x =? funder_to_add) funders))
              (Program FunderAlreadyAuthorized) in
  match position default_pubkey funders with
  | Some idx => Ok (Pool.set_funders (<[idx := funder_to_add]> funders) pool)
  | None => Err (Program MaxFunders)
  end.

Definition deauthorize_funder (pool : Pool.t) (funder_to_remove : Pubkey) : res Pool.t :=
  let* _ := require (negb (funder_to_remove =? pool.(Pool.authority)))
              (Program CannotDeauthorizePoolAuthority) in
  let funders := pool.(Pool.funders) in
  match position funder_to_remove funders with
  | Some idx => Ok (Pool.set_funders (<[idx := default_pubkey]> funders) pool)
  | None => Err (Program CannotDeauthorizeMissingAuthority)
  end.

(** [Fund]: [constraint = !pool.paused @ ErrorCode::PoolPaused] on the pool,
    then [funder.key() == pool.authority || pool.funders.iter().any(..)]. *)
Definition fund (pool : Pool.t) (funder from reward_vault : Pubkey) (amount now : Z)
    : res (Pool.t * list TokenInstr) :=
  let* _ := require (negb pool.(Pool.paused)) (Program PoolPaused) in
  let* _ := require ((funder =? pool.(Pool.authority))
                     || existsb (fun x => x =? funder) pool.(Pool.funders)) ConstraintRaw in
  let total_staked := pool.(Pool.total_staked) in
  let* '(pool, _) := update_rewards pool None total_staked now in
  let* current_time := unwrap (u64_try_from now) in
  let reward_period_end := pool.(Pool.reward_duration_end) in
  let* pool :=
    if reward_period_end <=? current_time then
      let* r := unwrap (checked_div amount pool.(Pool.reward_duration)) in
      Ok (Pool.set_reward_rate r pool)
    else
      let* remaining := unwrap (checked_sub pool.(Pool.reward_duration_end) current_time) in
      let* leftover := unwrap (checked_mul u64_max remaining pool.(Pool.reward_rate)) in
      let* s := unwrap (checked_add u64_max amount leftover) in
      let* r := unwrap (checked_div s pool.(Pool.reward_duration)) in
      Ok (Pool.set_reward_rate r pool) in
  let xfer := if 0 <? amount then [Transfer from reward_vault amount funder] else [] in
  let pool := Pool.set_last_update_time current_time pool in
  let* e := unwrap (checked_add u64_max current_time pool.(Pool.reward_duration)) in
  Ok (Pool.set_reward_duration_end e pool, xfer).

(** [claim]; [reward_vault_amount] is [ctx.accounts.reward_vault.amount],
    the balance of the reward vault when the instruction starts. *)
Definition claim (pool : Pool.t) (user : User.t) (reward_vault reward_account
    pool_signer : Pubkey) (reward_vault_amount now : Z)
    : res (Pool.t * User.t * list TokenInstr) :=
  let total_staked := pool.(Pool.total_staked) in
  let* n := unwrap (u64_try_from now) in
  let* _ := require (negb (n <? user.(User.maturity_time)))
              (Program CannotStakeOrClaimBeforeMaturity) in
  let* '(pool, ou) := update_rewards pool (Some user) total_staked now in
  let user := default user ou in
  if 0 <? user.(User.reward_per_token_pending) then
    let reward_amount := user.(User.reward_per_token_pending) in
    let vault_balance := reward_vault_amount in
    let user := User.set_reward_per_token_pending 0 user in
    let reward_amount := if vault_balance <? reward_amount then vault_balance
                         else reward_amount in
    if 0 <? reward_amount
    then Ok (pool, user, [Transfer reward_vault reward_account reward_amount pool_signer])
    else Ok (pool, user, [])
  else Ok (pool, user, []).

(** [CloseUser]: [user.balance_staked == 0], [user.reward_per_token_pending
    == 0]; the user account is closed by Anchor. *)
Definition close_user (pool : Pool.t) (user : User.t) : res Pool.t :=
  let* _ := require (user.(User.balance_staked) =? 0) ConstraintRaw in
  let* _ := require (user.(User.reward_per_token_pending) =? 0) ConstraintRaw in
  let* c := unwrap (checked_sub pool.(Pool.user_stake_count) 1) in
  Ok (Pool.set_user_stake_count c pool).

(** [ClosePool]: the pool constraints, then the sweep and closing of both
    vaults; the vault balances are the ones read when the instruction starts. *)
Definition close_pool (pool : Pool.t) (b : Bank) (staking_refundee reward_refundee
    pool_signer : Pubkey) (now : Z) : res (list TokenInstr) :=
  let* _ := require pool.(Pool.paused) ConstraintRaw in
  let* _ := require (0 <? pool.(Pool.reward_duration_end)) ConstraintRaw in
  let* n := unwrap (u64_try_from now) in
  let* _ := require (pool.(Pool.reward_duration_end) <? n) ConstraintRaw in
  let* _ := require (pool.(Pool.user_stake_count) =? 0) ConstraintRaw in
  let* _ := require (pool.(Pool.total_staked) =? 0) ConstraintRaw in
  let sv := pool.(Pool.staking_vault) in
  let rv := pool.(Pool.reward_vault) in
  let sb := b.(balance) sv in
  let rb := b.(balance) rv in
  Ok ((if 0 <? sb then [Transfer sv staking_refundee sb pool_signer] else [])
      ++ [CloseAccount sv pool_signer]
      ++ (if 0 <? rb then [Transfer rv reward_refundee rb pool_signer] else [])
      ++ [CloseAccount rv pool_signer]).

(** ** The program as a transition system

    One pool, from its initialisation on: the pool account ([None] once
    closed), the open user accounts of the pool keyed by their owner (the
    user address is the PDA of [owner, pool]), the SPL token accounts, the
    clock, the pool's address and its PDA signer [pool_signer]. *)
Record State := mkState {
  st_pool : option Pool.t;
  st_users : gmap Pubkey User.t;
  st_bank : Bank;
  st_now : Z;
  st_pool_key : Pubkey;
  st_pool_signer : Pubkey
}.

Definition with_accounts (s : State) (p : option Pool.t) (users : gmap Pubkey User.t)
    (b : Bank) : State :=
  mkState p users b s.(st_now) s.(st_pool_key) s.(st_pool_signer).

(** What the rest of the world can do to the token accounts between two
    instructions: an account owned by the pool's PDA is never debited nor
    handed over (only this program signs for the PDA), any account can be
    credited, and other accounts change freely. *)
Definition bank_wf (b : Bank) : Prop :=
  forall x, 0 <= b.(balance) x <= u64_max.

Definition bank_env (ps : Pubkey) (b b' : Bank) : Prop :=
  bank_wf b' /\
  forall x, b.(token_owner) x = ps ->
            b'.(token_owner) x = ps /\ b.(balance) x <= b'.(balance) x.

(** A successful instruction (a failing one leaves every account unchanged),
    or a move of the environment.  Signers are never the PDA [pool_signer],
    which has no private key. *)
Inductive step : State -> State -> Prop :=
| step_create_user s p owner bump p' u :
    s.(st_pool) = Some p -> owner <> s.(st_pool_signer) ->
    create_user p (bool_decide (is_Some (s.(st_users) !! owner))) s.(st_pool_key) owner bump
      = Ok (p', u) ->
    step s (with_accounts s (Some p') (<[owner := u]> s.(st_users)) s.(st_bank))
| step_pause s p p' :
    s.(st_pool) = Some p -> pause p s.(st_now) = Ok p' ->
    step s (with_accounts s (Some p') s.(st_users) s.(st_bank))
| step_unpause s p p' :
    s.(st_pool) = Some p -> unpause p = Ok p' ->
    step s (with_accounts s (Some p') s.(st_users) s.(st_bank))
| step_stake s p owner u from amount p' u' xs b' :
    s.(st_pool) = Some p -> s.(st_users) !! owner = Some u -> 0 <= amount <= u64_max ->
    stake p u from p.(Pool.staking_vault) amount s.(st_now) = Ok (p', u', xs) ->
    run_token_instrs s.(st_bank) xs = Ok b' ->
    step s (with_accounts s (Some p') (<[owner := u']> s.(st_users)) b')
| step_unstake s p owner u to amount p' u' xs b' :
    s.(st_pool) = Some p -> s.(st_users) !! owner = Some u -> 0 <= amount <= u64_max ->
    unstake p u to p.(Pool.staking_vault) s.(st_pool_signer) amount s.(st_now)
      = Ok (p', u', xs) ->
    run_token_instrs s.(st_bank) xs = Ok b' ->
    step s (with_accounts s (Some p') (<[owner := u']> s.(st_users)) b')
| step_authorize_funder s p f p' :
    s.(st_pool) = Some p -> authorize_funder p f = Ok p' ->
    step s (with_accounts s (Some p') s.(st_users) s.(st_bank))
| step_deauthorize_funder s p f p' :
    s.(st_pool) = Some p -> deauthorize_funder p f = Ok p' ->
    step s (with_accounts s (Some p') s.(st_users) s.(st_bank))
| step_fund s p funder from amount p' xs b' :
    s.(st_pool) = Some p -> funder <> s.(st_pool_signer) -> 0 <= amount <= u64_max ->
    fund p funder from p.(Pool.reward_vault) amount s.(st_now) = Ok (p', xs) ->
    run_token_instrs s.(st_bank) xs = Ok b' ->
    step s (with_accounts s (Some p') s.(st_users) b')
| step_claim s p owner u to p' u' xs b' :
    s.(st_pool) = Some p -> s.(st_users) !! owner = Some u ->
    claim p u p.(Pool.reward_vault) to s.(st_pool_signer)
      (s.(st_bank).(balance) p.(Pool.reward_vault)) s.(st_now) = Ok (p', u', xs) ->
    run_token_instrs s.(st_bank) xs = Ok b' ->
    step s (with_accounts s (Some p') (<[owner := u']> s.(st_users)) b')
| step_close_user s p owner u p' :
    s.(st_pool) = Some p -> s.(st_users) !! owner = Some u ->
    close_user p u = Ok p' ->
    step s (with_accounts s (Some p') (delete owner s.(st_users)) s.(st_bank))
| step_close_pool s p sr rr xs b' :
    s.(st_pool) = Some p ->
    close_pool p s.(st_bank) sr rr s.(st_pool_signer) s.(st_now) = Ok xs ->
    run_token_instrs s.(st_bank) xs = Ok b' ->
    step s (with_accounts s None s.(st_users) b')
| step_tick s now' :
    s.(st_now) <= now' ->
    step s (mkState s.(st_pool) s.(st_users) s.(st_bank) now' s.(st_pool_key)
              s.(st_pool_signer))
| step_bank s b' :
    bank_env s.(st_pool_signer) s.(st_bank) b' ->
    step s (with_accounts s s.(st_pool) s.(st_users) b').

(** [initialize_pool] on a zeroed pool account; [InitializePool] requires
    both vaults to be owned by [pool_signer].  No user account of the pool
    exists yet. *)
Inductive reachable : State -> Prop :=
| reach_init authority nonce sm sv rm rv d lock nt p b now key ps :
    initialize_pool authority nonce sm sv rm rv d lock nt = Ok p ->
    bank_wf b -> b.(token_owner) sv = ps -> b.(token_owner) rv = ps ->
    reachable (mkState (Some p) ∅ b now key ps)
| reach_step s s' : reachable s -> step s s' -> reachable s'.

(** Sum of [f] over the user accounts. *)
Definition user_sum (f : User.t -> Z) (users : gmap Pubkey User.t) : Z :=
  map_fold (fun _ u acc => f u + acc) 0 users.

(** ** Reward solvency (scaled by [PRECISION])

    What a user is owed at accumulator value [R], what the current emission
    schedule still has to hand out, and the resulting bound on the vaults. *)
Definition owed (R : Z) (u : User.t) : Z :=
  PRECISION * u.(User.reward_per_token_pending)
  + u.(User.balance_staked) * (R - u.(User.reward_per_token_complete)).

Definition scheduled (p : Pool.t) : Z :=
  PRECISION * p.(Pool.reward_rate) * (p.(Pool.reward_duration_end) - p.(Pool.last_update_time)).

Definition reward_debt (p : Pool.t) (users : gmap Pubkey User.t) : Z :=
  user_sum (owed p.(Pool.reward_per_token_stored)) users + scheduled p.

Definition solvent (p : Pool.t) (users : gmap Pubkey User.t) (b : Bank) : Prop :=
  let sv := p.(Pool.staking_vault) in
  let rv := p.(Pool.reward_vault) in
  if sv =? rv
  then PRECISION * p.(Pool.total_staked) + reward_debt p users <= PRECISION * b.(balance) sv
  else p.(Pool.total_staked) <= b.(balance) sv
       /\ reward_debt p users <= PRECISION * b.(balance) rv.

Definition user_ok (p : Pool.t) (ps : Pubkey) (u : User.t) : Prop :=
  0 <= u.(User.balance_staked) /\ 0 <= u.(User.reward_per_token_pending)
  /\ 0 <= u.(User.reward_per_token_complete) <= p.(Pool.reward_per_token_stored)
  /\ u.(User.owner) <> ps.

(** The invariant of an open pool [p] with user accounts [users], token
    accounts [b], clock [now] and PDA signer [ps]. *)
Definition pool_inv_at (p : Pool.t) (users : gmap Pubkey User.t) (b : Bank) (now ps : Z)
    : Prop :=
  p.(Pool.total_staked) = user_sum User.balance_staked users
  /\ (forall k u, users !! k = Some u -> user_ok p ps u)
  /\ 0 <= p.(Pool.last_update_time) <= p.(Pool.reward_duration_end)
  /\ p.(Pool.last_update_time) <= Z.max 0 now
  /\ p.(Pool.reward_duration_end) - p.(Pool.last_update_time) <= p.(Pool.reward_duration)
  /\ 0 <= p.(Pool.reward_rate) /\ MIN_DURATION <= p.(Pool.reward_duration)
  /\ 0 <= p.(Pool.reward_per_token_stored)
  /\ b.(token_owner) p.(Pool.staking_vault) = ps
  /\ b.(token_owner) p.(Pool.reward_vault) = ps
  /\ solvent p users b.

Definition pool_inv (s : State) : Prop :=
  match s.(st_pool) with
  | None => True
  | Some p => pool_inv_at p s.(st_users) s.(st_bank) s.(st_now) s.(st_pool_signer)
  end.

(** * Proofs *)

(** ** Reading the monadic code back *)

Lemma bind_Ok {A B} (m : res A) (f : A -> res B) b :
  res_bind m f = Ok b -> exists a, m = Ok a /\ f a = Ok b.
Proof. destruct m as [a|e]; simpl; [eauto | discriminate]. Qed.

Lemma unwrap_Ok {A} (o : option A) a : unwrap o = Ok a -> o = Some a.
Proof. destruct o; simpl; congruence. Qed.

Lemma require_Ok b e : require b e = Ok tt -> b = true.
Proof. destruct b; simpl; congruence. Qed.

Lemma checked_add_Some max a b c :
  checked_add max a b = Some c -> c = a + b /\ a + b <= max.
Proof. unfold checked_add. destruct (Z.leb_spec (a + b) max); intros Hs; inversion Hs; lia. Qed.

Lemma checked_sub_Some a b c : checked_sub a b = Some c -> c = a - b /\ b <= a.
Proof. unfold checked_sub. destruct (Z.leb_spec b a); intros Hs; inversion Hs; lia. Qed.

Lemma checked_mul_Some max a b c :
  checked_mul max a b = Some c -> c = a * b /\ a * b <= max.
Proof. unfold checked_mul. destruct (Z.leb_spec (a * b) max); intros Hs; inversion Hs; lia. Qed.

Lemma checked_div_Some a b c : checked_div a b = Some c -> c = a / b /\ b <> 0.
Proof. unfold checked_div. destruct (Z.eqb_spec b 0); intros Hs; inversion Hs; lia. Qed.

Lemma u64_try_from_Some x y : u64_try_from x = Some y -> y = x /\ 0 <= x <= u64_max.
Proof.
  unfold u64_try_from. destruct (Z.leb_spec 0 x), (Z.leb_spec x u64_max); simpl;
    intros Hs; inversion Hs; lia.
Qed.

Ltac res_inv :=
  repeat match goal with
  | H : res_bind _ _ = Ok _ |- _ =>
      let a := fresh "a" in let Ha := fresh "Ha" in
      apply bind_Ok in H; destruct H as (a & Ha & H); cbv beta in H
  | H : unwrap _ = Ok _ |- _ => apply unwrap_Ok in H
  | H : require _ _ = Ok _ |- _ =>
      apply require_Ok in H; rewrite ?negb_true_iff, ?Z.eqb_neq, ?Z.ltb_ge, ?Z.ltb_lt,
        ?Z.leb_le, ?Z.eqb_eq, ?orb_true_iff in H
  | H : checked_add _ _ _ = Some _ |- _ => apply checked_add_Some in H; destruct H as [? ?]; subst
  | H : checked_sub _ _ = Some _ |- _ => apply checked_sub_Some in H; destruct H as [? ?]; subst
  | H : checked_mul _ _ _ = Some _ |- _ => apply checked_mul_Some in H; destruct H as [? ?]; subst
  | H : checked_div _ _ = Some _ |- _ => apply checked_div_Some in H; destruct H as [? ?]; subst
  | H : u64_try_from _ = Some _ |- _ => apply u64_try_from_Some in H; destruct H as [? ?]; subst
  | H : Ok _ = Ok _ |- _ => injection H; clear H; intros; subst
  | H : Err _ = Ok _ |- _ => discriminate H
  | H : (_, _) = (_, _) |- _ => injection H; clear H; intros; subst
  | a : unit |- _ => destruct a
  | a : (_ * _)%type |- _ => destruct a
  end.

Lemma last_time_reward_applicable_Ok e now lt :
  last_time_reward_applicable e now = Ok lt -> lt = Z.min now e /\ 0 <= now <= u64_max.
Proof. unfold last_time_reward_applicable. intros H. res_inv. auto. Qed.

Lemma reward_per_token_Ok ts r lt lu rate r' :
  reward_per_token ts r lt lu rate = Ok r' ->
  r' = (if ts =? 0 then r else r + (lt - lu) * rate * PRECISION / ts)
  /\ (ts <> 0 -> lu <= lt /\ (lt - lu) * rate * PRECISION <= u128_max
                 /\ r + (lt - lu) * rate * PRECISION / ts <= u128_max).
Proof.
  unfold reward_per_token. destruct (Z.eqb_spec ts 0) as [E|E].
  - intros H. res_inv. split; [reflexivity | lia].
  - intros H. res_inv. split; [reflexivity | intros _; repeat split; lia].
Qed.

Lemma earned_Ok bal rpt paid pend e :
  earned bal rpt paid pend = Ok e ->
  e = bal * (rpt - paid) / PRECISION + pend /\ paid <= rpt /\ 0 <= e <= u64_max.
Proof. unfold earned. intros H. res_inv. repeat split; lia. Qed.

(** ** Sums over the user accounts *)

Section UserSum.
Implicit Types (m : gmap Pubkey User.t) (f g : User.t -> Z).

Lemma user_sum_empty f : user_sum f ∅ = 0.
Proof. unfold user_sum. apply map_fold_empty. Qed.

Lemma user_sum_insert_new f m k u :
  m !! k = None -> user_sum f (<[k := u]> m) = f u + user_sum f m.
Proof.
  intros Hk. unfold user_sum. rewrite map_fold_insert_L; [reflexivity | | exact Hk].
  intros; lia.
Qed.

Lemma user_sum_delete f m k u :
  m !! k = Some u -> user_sum f m = f u + user_sum f (delete k m).
Proof.
  intros Hk. unfold user_sum. rewrite (map_fold_delete_L _ _ k u m); [reflexivity | | exact Hk].
  intros; lia.
Qed.

Lemma user_sum_insert f m k u u' :
  m !! k = Some u -> user_sum f (<[k := u']> m) = user_sum f m - f u + f u'.
Proof.
  intros Hk. rewrite (user_sum_delete f m k u Hk).
  rewrite <- insert_delete_eq. rewrite user_sum_insert_new by apply lookup_delete_eq. lia.
Qed.

Lemma user_sum_le f g m :
  (forall k u, m !! k = Some u -> f u <= g u) -> user_sum f m <= user_sum g m.
Proof.
  induction m as [|k u m Hk IH] using map_ind; intros Hle.
  - rewrite !user_sum_empty. lia.
  - rewrite !user_sum_insert_new by exact Hk.
    assert (f u <= g u) by (apply (Hle k); apply lookup_insert_eq).
    assert (user_sum f m <= user_sum g m).
    { apply IH. intros k' u' Hk'. apply (Hle k'). rewrite lookup_insert_ne; [exact Hk'|].
      intros ->. congruence. }
    lia.
Qed.

Lemma user_sum_ext f g m :
  (forall k u, m !! k = Some u -> f u = g u) -> user_sum f m = user_sum g m.
Proof.
  intros H. apply Z.le_antisymm; apply user_sum_le; intros k u Hk; rewrite (H k u Hk); lia.
Qed.

Lemma user_sum_linear f g c m :
  user_sum (fun u => f u + c * g u) m = user_sum f m + c * user_sum g m.
Proof.
  induction m as [|k u m Hk IH] using map_ind.
  - rewrite !user_sum_empty. lia.
  - rewrite !user_sum_insert_new by exact Hk. rewrite IH. lia.
Qed.

Lemma user_sum_nonneg f m :
  (forall k u, m !! k = Some u -> 0 <= f u) -> 0 <= user_sum f m.
Proof.
  intros H. rewrite <- (user_sum_empty f) at 1.
  replace (user_sum f ∅) with (user_sum (fun _ => 0) m).
  - apply user_sum_le. exact H.
  - rewrite user_sum_empty. induction m as [|k u m Hk IH] using map_ind.
    + apply user_sum_empty.
    + rewrite user_sum_insert_new by exact Hk. rewrite IH; [reflexivity|].
      intros k' u' Hk'. apply (H k'). rewrite lookup_insert_ne; [exact Hk'|]. intros ->. congruence.
Qed.

Lemma user_sum_member_le f m k u :
  (forall k u, m !! k = Some u -> 0 <= f u) -> m !! k = Some u -> f u <= user_sum f m.
Proof.
  intros H Hk. rewrite (user_sum_delete f m k u Hk).
  assert (0 <= user_sum f (delete k m)); [|lia].
  apply user_sum_nonneg. intros k' u' Hk'. apply (H k').
  rewrite lookup_delete_Some in Hk'. tauto.
Qed.
End UserSum.

(** ** The checkpoint *)

Lemma update_rewards_Ok pool user ts now pool' user' :
  update_rewards pool user ts now = Ok (pool', user') ->
  let eff := Z.min now pool.(Pool.reward_duration_end) in
  exists rpt,
    pool' = Pool.set_last_update_time eff (Pool.set_reward_per_token_stored rpt pool)
    /\ 0 <= now <= u64_max
    /\ rpt = (if ts =? 0 then pool.(Pool.reward_per_token_stored)
              else pool.(Pool.reward_per_token_stored)
                   + (eff - pool.(Pool.last_update_time)) * pool.(Pool.reward_rate)
                     * PRECISION / ts)
    /\ (ts <> 0 -> pool.(Pool.last_update_time) <= eff
                   /\ (eff - pool.(Pool.last_update_time)) * pool.(Pool.reward_rate)
                      * PRECISION <= u128_max
                   /\ rpt <= u128_max)
    /\ match user, user' with
       | None, None => True
       | Some u, Some u' =>
           u' = User.set_reward_per_token_complete rpt
                  (User.set_reward_per_token_pending
                     (u.(User.balance_staked) * (rpt - u.(User.reward_per_token_complete))
                        / PRECISION + u.(User.reward_per_token_pending)) u)
           /\ u.(User.reward_per_token_complete) <= rpt
           /\ 0 <= u.(User.balance_staked) * (rpt - u.(User.reward_per_token_complete))
                     / PRECISION + u.(User.reward_per_token_pending) <= u64_max
       | _, _ => False
       end.
Proof.
  unfold update_rewards. intros H. res_inv.
  apply last_time_reward_applicable_Ok in Ha as [-> Hnow].
  apply reward_per_token_Ok in Ha0 as [Hr Hb]. subst a0.
  assert (Hb' : ts <> 0 -> Pool.last_update_time pool <= Z.min now (Pool.reward_duration_end pool)
    /\ (Z.min now (Pool.reward_duration_end pool) - Pool.last_update_time pool)
       * Pool.reward_rate pool * PRECISION <= u128_max
    /\ (if ts =? 0 then Pool.reward_per_token_stored pool
        else Pool.reward_per_token_stored pool
             + (Z.min now (Pool.reward_duration_end pool) - Pool.last_update_time pool)
               * Pool.reward_rate pool * PRECISION / ts) <= u128_max).
  { intros Hts. specialize (Hb Hts). destruct (Z.eqb_spec ts 0); [lia | exact Hb]. }
  clear Hb.
  destruct user as [u|]; res_inv.
  - apply earned_Ok in Ha as (He & Hc & He'). simpl in He, Hc. subst a.
    eexists. split; [reflexivity|]. split; [exact Hnow|]. split; [reflexivity|].
    split; [exact Hb'|]. split; [reflexivity|]. split; assumption.
  - eexists. split; [reflexivity|]. split; [exact Hnow|]. split; [reflexivity|].
    split; [exact Hb'|exact I].
Qed.

(** C1: the checkpoint [update_rewards].  Whenever it completes (every
    checked step of its u128 chain, and the final conversion of the pending
    amount to u64, succeeded), with [effective_time = min(now,
    reward_duration_end)]: [reward_per_token_stored] is unchanged when
    [total_staked = 0] and otherwise grows by [(effective_time -
    last_update_time) * reward_rate * PRECISION / total_staked], computed
    without overflowing u128; [last_update_time] becomes [effective_time];
    no other pool field changes; a supplied user gets [pending = balance_staked
    * (new reward_per_token_stored - reward_per_token_complete) / PRECISION +
    old pending] and [reward_per_token_complete = new reward_per_token_stored]. *)
Theorem update_rewards_checkpoint (pool : Pool.t) (user : option User.t)
    (total_staked now : Z) (pool' : Pool.t) (user' : option User.t) :
  update_rewards pool user total_staked now = Ok (pool', user') ->
  let effective_time := Z.min now pool.(Pool.reward_duration_end) in
  let rpt := if total_staked =? 0 then pool.(Pool.reward_per_token_stored)
             else pool.(Pool.reward_per_token_stored)
                  + (effective_time - pool.(Pool.last_update_time)) * pool.(Pool.reward_rate)
                    * PRECISION / total_staked in
  pool' = Pool.set_last_update_time effective_time (Pool.set_reward_per_token_stored rpt pool)
  /\ (total_staked <> 0 ->
        (effective_time - pool.(Pool.last_update_time)) * pool.(Pool.reward_rate) * PRECISION
          <= u128_max /\ rpt <= u128_max)
  /\ match user, user' with
     | None, None => True
     | Some u, Some u' =>
         u' = User.set_reward_per_token_complete rpt
                (User.set_reward_per_token_pending
                   (u.(User.balance_staked) * (rpt - u.(User.reward_per_token_complete))
                      / PRECISION + u.(User.reward_per_token_pending)) u)
     | _, _ => False
     end.
Proof.
  intros H. apply update_rewards_Ok in H as (rpt & Hp & _ & Hr & Hb & Hu).
  subst rpt. split; [exact Hp|]. split.
  - intros Hts. destruct (Hb Hts) as (_ & ? & ?). split; assumption.
  - destruct user, user'; try contradiction; [apply Hu | exact I].
Qed.

Definition example_pool : Pool.t :=
  Pool.mk 1 255 false 2 3 4 5 86400 1000 100 100 7 0 0 50 false [0; 0; 0; 0; 0].
Definition example_user : User.t := User.mk 9 10 0 3 20 0 0 254.

Definition example_pool_checkpointed : Pool.t :=
  Pool.set_last_update_time 400 (Pool.set_reward_per_token_stored (42 * PRECISION) example_pool).
Definition example_user_checkpointed : User.t :=
  User.set_reward_per_token_complete (42 * PRECISION)
    (User.set_reward_per_token_pending 843 example_user).

Lemma update_rewards_checkpoint_witness :
  update_rewards example_pool (Some example_user) 50 400
    = Ok (example_pool_checkpointed, Some example_user_checkpointed)
  /\ example_pool_checkpointed.(Pool.reward_per_token_stored) = 300 * 7 * PRECISION / 50
  /\ example_user_checkpointed.(User.reward_per_token_pending)
     = 20 * (300 * 7 * PRECISION / 50 - 0) / PRECISION + 3.
Proof.
  assert (H : update_rewards example_pool (Some example_user) 50 400
              = Ok (example_pool_checkpointed, Some example_user_checkpointed))
    by (vm_compute; reflexivity).
  split; [exact H|].
  destruct (update_rewards_checkpoint _ _ _ _ _ _ H) as (Hp & _ & Hu).
  rewrite Hp, Hu. split; vm_compute; reflexivity.
Defined.

(** ** Token transfers *)

Lemma spl_transfer_Ok b from to amount auth b' :
  spl_transfer b from to amount auth = Ok b' ->
  b'.(token_owner) = b.(token_owner) /\ b.(token_owner) from = auth
  /\ amount <= b.(balance) from
  /\ (from = to -> b' = b)
  /\ (from <> to ->
        b'.(balance) from = b.(balance) from - amount
        /\ b'.(balance) to = b.(balance) to + amount
        /\ b.(balance) to + amount <= u64_max
        /\ forall x, x <> from -> x <> to -> b'.(balance) x = b.(balance) x).
Proof.
  unfold spl_transfer. intros H.
  destruct (Z.eqb_spec (token_owner b from) auth) as [Ho|Ho]; simpl in H; [|discriminate].
  destruct (Z.ltb_spec (balance b from) amount); [discriminate|].
  destruct (Z.eqb_spec from to) as [E|E].
  - injection H as <-. repeat split; auto; congruence.
  - destruct (checked_add u64_max (balance b to) amount) as [nt|] eqn:Hc; [|discriminate].
    apply checked_add_Some in Hc as [-> Hc]. injection H as <-. simpl.
    split; [reflexivity|]. split; [exact Ho|]. split; [lia|].
    split; [intros; contradiction|]. intros _. unfold upd.
    split; [|split; [|split]].
    + rewrite (proj2 (Z.eqb_neq from to) E), Z.eqb_refl. reflexivity.
    + rewrite Z.eqb_refl. reflexivity.
    + exact Hc.
    + intros x Hx1 Hx2. rewrite (proj2 (Z.eqb_neq x to) Hx2), (proj2 (Z.eqb_neq x from) Hx1).
      reflexivity.
Qed.

(** A transfer never lowers an account other than its source, and lowers
    the source by at most [amount]. *)
Lemma spl_transfer_balances b from to amount auth b' :
  0 <= amount ->
  spl_transfer b from to amount auth = Ok b' ->
  b'.(token_owner) = b.(token_owner) /\ b.(token_owner) from = auth
  /\ amount <= b.(balance) from
  /\ b.(balance) from - amount <= b'.(balance) from
  /\ forall x, x <> from -> b.(balance) x <= b'.(balance) x.
Proof.
  intros Ha H. apply spl_transfer_Ok in H as (Ho & Hauth & Hle & Hsame & Hdiff).
  repeat split; auto.
  - destruct (Z.eq_dec from to) as [E|E].
    + rewrite (Hsame E). lia.
    + destruct (Hdiff E) as (-> & _). lia.
  - intros x Hx. destruct (Z.eq_dec from to) as [E|E].
    + rewrite (Hsame E). lia.
    + destruct (Hdiff E) as (_ & Hto & _ & Hoth).
      destruct (Z.eq_dec x to) as [->|Ex]; [rewrite Hto; lia|].
      rewrite (Hoth x Hx Ex). lia.
Qed.

Lemma run_one b i b' : run_token_instrs b [i] = Ok b' ->
  match i with
  | Transfer from to amount auth => spl_transfer b from to amount auth = Ok b'
  | CloseAccount acc auth => spl_close_account b acc auth = Ok b'
  end.
Proof.
  destruct i as [f t a au|ac au]; simpl;
    [destruct (spl_transfer b f t a au) | destruct (spl_close_account b ac au)]; simpl; congruence.
Qed.

(** ** Invariant bookkeeping *)

Lemma user_ok_mono p p' ps u :
  p.(Pool.reward_per_token_stored) <= p'.(Pool.reward_per_token_stored) ->
  user_ok p ps u -> user_ok p' ps u.
Proof. unfold user_ok. intros; lia. Qed.

Lemma owed_shift R R' u :
  owed R' u = owed R u + (R' - R) * u.(User.balance_staked).
Proof. unfold owed. lia. Qed.

Lemma user_sum_owed_shift R R' m :
  user_sum (owed R') m = user_sum (owed R) m + (R' - R) * user_sum User.balance_staked m.
Proof.
  rewrite <- user_sum_linear. apply user_sum_ext. intros k u _. apply owed_shift.
Qed.

Lemma user_sum_owed_nonneg R m ps p :
  p.(Pool.reward_per_token_stored) = R ->
  (forall k u, m !! k = Some u -> user_ok p ps u) -> 0 <= user_sum (owed R) m.
Proof.
  intros HR H. apply user_sum_nonneg. intros k u Hk. destruct (H k u Hk) as (? & ? & ? & _).
  unfold owed. subst R. unfold PRECISION, u64_max. nia.
Qed.

Lemma PRECISION_pos : 0 < PRECISION.
Proof. unfold PRECISION, u64_max. lia. Qed.

(** The checkpoint never increases the reward debt, and the user it
    checkpoints is owed no more than before. *)
Lemma checkpoint_debt p m ps now ou p1 ou1 :
  p.(Pool.total_staked) = user_sum User.balance_staked m ->
  (forall k u, m !! k = Some u -> user_ok p ps u) ->
  0 <= p.(Pool.last_update_time) <= p.(Pool.reward_duration_end) ->
  p.(Pool.last_update_time) <= Z.max 0 now ->
  0 <= p.(Pool.reward_rate) -> 0 <= p.(Pool.reward_per_token_stored) ->
  update_rewards p ou p.(Pool.total_staked) now = Ok (p1, ou1) ->
  exists R',
    p1 = Pool.set_last_update_time (Z.min now p.(Pool.reward_duration_end))
           (Pool.set_reward_per_token_stored R' p)
    /\ p.(Pool.reward_per_token_stored) <= R' /\ 0 <= now <= u64_max
    /\ p.(Pool.last_update_time) <= Z.min now p.(Pool.reward_duration_end)
    /\ reward_debt p1 m <= reward_debt p m
    /\ match ou, ou1 with
       | None, None => True
       | Some u, Some u1 =>
           user_ok p ps u ->
           user_ok p1 ps u1 /\ owed R' u1 <= owed R' u
           /\ u1.(User.reward_per_token_complete) = R'
           /\ u1.(User.balance_staked) = u.(User.balance_staked)
           /\ u1.(User.owner) = u.(User.owner)
           /\ u1.(User.maturity_time) = u.(User.maturity_time)
           /\ u1.(User.reward_per_token_pending) <= u64_max
       | _, _ => False
       end.
Proof.
  intros Htot Hus Hlut Hnow Hrate HR H.
  apply update_rewards_Ok in H as (R' & Hp1 & Hn & HR' & Hb & Hu).
  set (eff := Z.min now (Pool.reward_duration_end p)) in *.
  assert (Hts : 0 <= Pool.total_staked p).
  { rewrite Htot. apply user_sum_nonneg. intros k u Hk. apply (Hus k u Hk). }
  assert (Heff : Pool.last_update_time p <= eff) by (unfold eff; lia).
  pose proof PRECISION_pos as HP.
  (* the increment, times the total stake, is bounded by the emission *)
  assert (Hinc : 0 <= R' - Pool.reward_per_token_stored p
                 /\ (R' - Pool.reward_per_token_stored p) * Pool.total_staked p
                    <= (eff - Pool.last_update_time p) * Pool.reward_rate p * PRECISION).
  { subst R'. destruct (Z.eqb_spec (Pool.total_staked p) 0) as [E|E].
    - rewrite E. simpl. split; [lia|]. rewrite Z.mul_0_r.
      apply Z.mul_nonneg_nonneg; [apply Z.mul_nonneg_nonneg|]; lia.
    - assert (0 <= (eff - Pool.last_update_time p) * Pool.reward_rate p * PRECISION)
        by (apply Z.mul_nonneg_nonneg; [apply Z.mul_nonneg_nonneg|]; lia).
      split.
      + assert (0 <= (eff - Pool.last_update_time p) * Pool.reward_rate p * PRECISION
                     / Pool.total_staked p) by (apply Z.div_pos; lia). lia.
      + replace (Pool.reward_per_token_stored p + _ - Pool.reward_per_token_stored p)
          with ((eff - Pool.last_update_time p) * Pool.reward_rate p * PRECISION
                / Pool.total_staked p) by ring.
        rewrite Z.mul_comm. apply Z.mul_div_le. lia. }
  exists R'. split; [exact Hp1|]. split; [lia|]. split; [exact Hn|]. split; [exact Heff|].
  split.
  - subst p1. unfold reward_debt, scheduled. simpl.
    rewrite (user_sum_owed_shift (Pool.reward_per_token_stored p) R' m), <- Htot.
    nia.
  - destruct ou as [u|], ou1 as [u1|]; try contradiction; [|exact I].
    destruct Hu as (-> & Hc & He). intros Hok.
    destruct Hok as (Hbal & Hpend & Hcom & Howner).
    subst p1. unfold user_ok, owed. simpl.
    pose proof (Z.mul_div_le (User.balance_staked u * (R' - User.reward_per_token_complete u))
                  PRECISION HP).
    rewrite Z.sub_diag, Z.mul_0_r, Z.add_0_r, Z.mul_add_distr_l.
    repeat split; lia.
Qed.

(** ** Preservation of the invariant, instruction by instruction *)

Lemma inv_fields p p' m b now ps :
  pool_inv_at p m b now ps ->
  p'.(Pool.total_staked) = p.(Pool.total_staked) ->
  p'.(Pool.last_update_time) = p.(Pool.last_update_time) ->
  p'.(Pool.reward_duration_end) = p.(Pool.reward_duration_end) ->
  p'.(Pool.reward_duration) = p.(Pool.reward_duration) ->
  p'.(Pool.reward_rate) = p.(Pool.reward_rate) ->
  p'.(Pool.reward_per_token_stored) = p.(Pool.reward_per_token_stored) ->
  p'.(Pool.staking_vault) = p.(Pool.staking_vault) ->
  p'.(Pool.reward_vault) = p.(Pool.reward_vault) ->
  pool_inv_at p' m b now ps.
Proof.
  destruct p, p'; simpl; intros H; intros; subst; exact H.
Qed.

Lemma user_ok_insert p ps (m : gmap Pubkey User.t) (k : Pubkey) u :
  (forall k u, m !! k = Some u -> user_ok p ps u) -> user_ok p ps u ->
  forall k' u', <[k := u]> m !! k' = Some u' -> user_ok p ps u'.
Proof.
  intros Hm Hu k' u' Hk'. rewrite lookup_insert in Hk'.
  destruct (decide (k = k')); [injection Hk' as <-; exact Hu | exact (Hm k' u' Hk')].
Qed.

Lemma inv_insert_fresh p m b now ps k u :
  pool_inv_at p m b now ps -> m !! k = None -> user_ok p ps u ->
  u.(User.balance_staked) = 0 -> owed p.(Pool.reward_per_token_stored) u = 0 ->
  pool_inv_at p (<[k := u]> m) b now ps.
Proof.
  intros (Htot & Hus & Hrest & Hrest' & Hrest'' & Hrest3 & Hrest4 & Hrest5 & Hosv & Horv & Hsol)
    Hk Hu Hb Ho.
  unfold pool_inv_at, solvent, reward_debt in *.
  rewrite !user_sum_insert_new by exact Hk. rewrite Hb, Ho, !Z.add_0_l.
  split; [exact Htot|]. split; [exact (user_ok_insert _ _ _ _ _ Hus Hu)|].
  repeat (split; [assumption|]). exact Hsol.
Qed.

Lemma inv_create_user p m b now ps key owner bump p' u :
  pool_inv_at p m b now ps -> owner <> ps ->
  create_user p (bool_decide (is_Some (m !! owner))) key owner bump = Ok (p', u) ->
  pool_inv_at p' (<[owner := u]> m) b now ps.
Proof.
  intros Hinv Hne H. unfold create_user in H. res_inv.
  match goal with Hx : bool_decide _ = false |- _ =>
    rewrite bool_decide_eq_false in Hx; apply eq_None_not_Some in Hx end.
  assert (Hinv' := inv_fields p (Pool.set_user_stake_count (Pool.user_stake_count p + 1) p)
                     m b now ps Hinv eq_refl eq_refl eq_refl eq_refl eq_refl eq_refl eq_refl eq_refl).
  assert (HR : 0 <= Pool.reward_per_token_stored p) by apply Hinv.
  apply inv_insert_fresh; try assumption; unfold user_ok, owed; simpl; repeat split; lia.
Qed.

Lemma solvent_shift p m b p' m' b' :
  solvent p m b ->
  p'.(Pool.staking_vault) = p.(Pool.staking_vault) ->
  p'.(Pool.reward_vault) = p.(Pool.reward_vault) ->
  (let sv := p.(Pool.staking_vault) in
   let rv := p.(Pool.reward_vault) in
   if sv =? rv
   then PRECISION * (p'.(Pool.total_staked) - p.(Pool.total_staked))
        + (reward_debt p' m' - reward_debt p m)
        <= PRECISION * (b'.(balance) sv - b.(balance) sv)
   else p'.(Pool.total_staked) - p.(Pool.total_staked) <= b'.(balance) sv - b.(balance) sv
        /\ reward_debt p' m' - reward_debt p m
           <= PRECISION * (b'.(balance) rv - b.(balance) rv)) ->
  solvent p' m' b'.
Proof.
  unfold solvent. cbv zeta. intros Hs -> ->.
  destruct (Pool.staking_vault p =? Pool.reward_vault p); lia.
Qed.

Lemma set_total_staked_same p : Pool.set_total_staked p.(Pool.total_staked) p = p.
Proof. destruct p; reflexivity. Qed.

(** Replacing the account of one user, with the pool's total adjusted by
    the change of its stake. *)
Lemma inv_user_replace p m b now ps k u u' t b' :
  pool_inv_at p m b now ps -> m !! k = Some u -> user_ok p ps u' ->
  t = p.(Pool.total_staked) - u.(User.balance_staked) + u'.(User.balance_staked) ->
  b'.(token_owner) = b.(token_owner) ->
  solvent (Pool.set_total_staked t p) (<[k := u']> m) b' ->
  pool_inv_at (Pool.set_total_staked t p) (<[k := u']> m) b' now ps.
Proof.
  intros (Htot & Hus & Hrest) Hk Hu' Ht Hown Hsol.
  unfold pool_inv_at in *. simpl. rewrite Hown.
  split; [rewrite (user_sum_insert _ _ _ _ _ Hk); lia|].
  split; [exact (user_ok_insert _ _ _ _ _ Hus Hu')|].
  destruct Hrest as (H1 & H2 & H3 & H4 & H5 & H6 & H7 & H8 & _).
  repeat (split; [assumption|]). exact Hsol.
Qed.

(** A checkpoint keeps the invariant. *)
Lemma inv_checkpoint p m b now ps ou p1 ou1 :
  pool_inv_at p m b now ps ->
  update_rewards p ou p.(Pool.total_staked) now = Ok (p1, ou1) ->
  (exists R',
    p1 = Pool.set_last_update_time (Z.min now p.(Pool.reward_duration_end))
           (Pool.set_reward_per_token_stored R' p)
    /\ p.(Pool.reward_per_token_stored) <= R')
  /\ 0 <= now <= u64_max
  /\ pool_inv_at p1 m b now ps
  /\ match ou, ou1 with
     | None, None => True
     | Some u, Some u1 =>
         forall k, m !! k = Some u ->
           pool_inv_at p1 (<[k := u1]> m) b now ps
           /\ u1.(User.reward_per_token_complete) = p1.(Pool.reward_per_token_stored)
           /\ u1.(User.balance_staked) = u.(User.balance_staked)
           /\ u1.(User.owner) = u.(User.owner)
           /\ u1.(User.maturity_time) = u.(User.maturity_time)
           /\ 0 <= u1.(User.reward_per_token_pending) <= u64_max
     | _, _ => False
     end.
Proof.
  intros Hinv H. pose proof Hinv as Hinv0.
  destruct Hinv as (Htot & Hus & Hlut & Hnow & Hd & Hrate & Hmin & HR & Hosv & Horv & Hsol).
  destruct (checkpoint_debt p m ps now ou p1 ou1 Htot Hus Hlut Hnow Hrate HR H)
    as (R' & Hp1 & HRR & Hn & Heff & Hdebt & Hu).
  assert (Hinv1 : pool_inv_at p1 m b now ps).
  { subst p1. unfold pool_inv_at. simpl. simpl in Hdebt.
    split; [exact Htot|].
    split; [intros k u Hk; apply (user_ok_mono p); [simpl; lia | exact (Hus k u Hk)]|].
    repeat (split; [lia|]).
    apply (solvent_shift p m b); [exact Hsol | reflexivity | reflexivity |].
    cbv zeta. simpl. destruct (_ =? _); lia. }
  split; [exists R'; split; assumption|]. split; [exact Hn|]. split; [exact Hinv1|].
  destruct ou as [u|], ou1 as [u1|]; try contradiction; [|exact I].
  intros k Hk.
  destruct (Hu (Hus k u Hk)) as (Hok1 & Howed & Hc & Hb & Ho & Hm & Hp).
  assert (HR1 : Pool.reward_per_token_stored p1 = R') by (subst p1; reflexivity).
  split; [|repeat split; try lia; destruct Hok1 as (_ & ? & _); lia].
  rewrite <- (set_total_staked_same p1).
  apply (inv_user_replace p1 m b now ps k u u1); auto; [lia|].
  rewrite set_total_staked_same.
  apply (solvent_shift p1 m b); [apply Hinv1 | reflexivity | reflexivity |].
  unfold reward_debt. rewrite (user_sum_insert _ _ _ _ _ Hk), HR1.
  cbv zeta. destruct (_ =? _); lia.
Qed.

Lemma inv_pause p m b now ps p' :
  pool_inv_at p m b now ps -> pause p now = Ok p' -> pool_inv_at p' m b now ps.
Proof.
  intros Hinv H. unfold pause in H. res_inv. apply (inv_fields p); auto.
Qed.

Lemma inv_unpause p m b now ps p' :
  pool_inv_at p m b now ps -> unpause p = Ok p' -> pool_inv_at p' m b now ps.
Proof.
  intros Hinv H. unfold unpause in H. res_inv. apply (inv_fields p); auto.
Qed.

Lemma inv_authorize_funder p m b now ps f p' :
  pool_inv_at p m b now ps -> authorize_funder p f = Ok p' -> pool_inv_at p' m b now ps.
Proof.
  intros Hinv H. unfold authorize_funder in H. res_inv.
  destruct (position default_pubkey (Pool.funders p)); [|discriminate].
  res_inv. apply (inv_fields p); auto.
Qed.

Lemma inv_deauthorize_funder p m b now ps f p' :
  pool_inv_at p m b now ps -> deauthorize_funder p f = Ok p' -> pool_inv_at p' m b now ps.
Proof.
  intros Hinv H. unfold deauthorize_funder in H. res_inv.
  destruct (position f (Pool.funders p)); [|discriminate].
  res_inv. apply (inv_fields p); auto.
Qed.

Lemma inv_delete p m b now ps k u :
  pool_inv_at p m b now ps -> m !! k = Some u ->
  u.(User.balance_staked) = 0 -> u.(User.reward_per_token_pending) = 0 ->
  pool_inv_at p (delete k m) b now ps.
Proof.
  intros (Htot & Hus & H1 & H2 & H3 & H4 & H5 & H6 & H7 & H8 & Hsol) Hk Hb Hp.
  assert (Ho : owed p.(Pool.reward_per_token_stored) u = 0) by (unfold owed; rewrite Hb, Hp; lia).
  unfold pool_inv_at. split.
  - rewrite Htot, (user_sum_delete _ _ _ _ Hk). lia.
  - split; [intros k' u' Hk'; apply lookup_delete_Some in Hk'; apply (Hus k'); tauto|].
    repeat (split; [assumption|]).
    apply (solvent_shift p m b); auto. unfold reward_debt.
    rewrite (user_sum_delete _ _ _ _ Hk), Ho.
    cbv zeta. destruct (_ =? _); lia.
Qed.

Lemma inv_close_user p m b now ps k u p' :
  pool_inv_at p m b now ps -> m !! k = Some u -> close_user p u = Ok p' ->
  pool_inv_at p' (delete k m) b now ps.
Proof.
  intros Hinv Hk H. unfold close_user in H. res_inv.
  apply (inv_fields p); auto. apply (inv_delete p m b now ps k u); auto.
Qed.

Lemma inv_tick p m b now now' ps :
  pool_inv_at p m b now ps -> now <= now' -> pool_inv_at p m b now' ps.
Proof.
  intros (H0 & H1 & H2 & H3 & Hrest) Hle. unfold pool_inv_at.
  repeat (split; [assumption|]). split; [lia|]. exact Hrest.
Qed.

Lemma inv_bank p m b b' now ps :
  pool_inv_at p m b now ps -> bank_env ps b b' -> pool_inv_at p m b' now ps.
Proof.
  intros (H0 & H1 & H2 & H3 & H4 & H5 & H6 & H7 & Hosv & Horv & Hsol) (_ & Henv).
  destruct (Henv _ Hosv) as (Hosv' & Hsv). destruct (Henv _ Horv) as (Horv' & Hrv).
  unfold pool_inv_at. repeat (split; [assumption|]).
  apply (solvent_shift p m b); auto. pose proof PRECISION_pos.
  cbv zeta. destruct (_ =? _); nia.
Qed.

Lemma inv_init authority nonce sm sv rm rv d lock nt p b now ps :
  initialize_pool authority nonce sm sv rm rv d lock nt = Ok p ->
  bank_wf b -> b.(token_owner) sv = ps -> b.(token_owner) rv = ps ->
  pool_inv_at p ∅ b now ps.
Proof.
  intros H Hwf Hsv Hrv. unfold initialize_pool in H. res_inv.
  unfold pool_inv_at, solvent, reward_debt, scheduled. simpl.
  rewrite !user_sum_empty. pose proof (Hwf sv). pose proof (Hwf rv). pose proof PRECISION_pos.
  unfold MIN_DURATION in *.
  split; [reflexivity|]. split; [intros k u Hk; rewrite lookup_empty in Hk; discriminate|].
  repeat (split; [lia|]).
  destruct (sv =? rv); nia.
Qed.

Lemma wrapping_add64_small a b : 0 <= a + b <= u64_max -> wrapping_add64 a b = a + b.
Proof. unfold wrapping_add64, u64_max. intros. apply Z.mod_small. lia. Qed.

Lemma wrapping_sub64_small a b : 0 <= a - b <= u64_max -> wrapping_sub64 a b = a - b.
Proof. unfold wrapping_sub64, u64_max. intros. apply Z.mod_small. lia. Qed.

Lemma inv_debt_nonneg p m b now ps :
  pool_inv_at p m b now ps -> 0 <= reward_debt p m.
Proof.
  intros (_ & Hus & Hlut & _ & _ & Hrate & _).
  unfold reward_debt, scheduled. pose proof PRECISION_pos.
  pose proof (user_sum_owed_nonneg _ m ps p eq_refl Hus).
  assert (0 <= PRECISION * Pool.reward_rate p
                * (Pool.reward_duration_end p - Pool.last_update_time p)) by
    (apply Z.mul_nonneg_nonneg; [apply Z.mul_nonneg_nonneg|]; lia).
  lia.
Qed.

(** The staked total is covered by the staking vault. *)
Lemma inv_total_le p m b now ps :
  pool_inv_at p m b now ps ->
  0 <= p.(Pool.total_staked) <= b.(balance) p.(Pool.staking_vault).
Proof.
  intros Hinv. pose proof (inv_debt_nonneg _ _ _ _ _ Hinv) as Hd.
  destruct Hinv as (Htot & Hus & _ & _ & _ & _ & _ & _ & _ & _ & Hsol).
  assert (0 <= Pool.total_staked p).
  { rewrite Htot. apply user_sum_nonneg. intros k u Hk. apply (Hus k u Hk). }
  unfold solvent in Hsol. cbv zeta in Hsol. pose proof PRECISION_pos.
  destruct (_ =? _); nia.
Qed.

Lemma inv_stake p m b now ps k u from amount p' u' xs b' :
  pool_inv_at p m b now ps -> m !! k = Some u -> 0 <= amount <= u64_max ->
  stake p u from p.(Pool.staking_vault) amount now = Ok (p', u', xs) ->
  run_token_instrs b xs = Ok b' ->
  pool_inv_at p' (<[k := u']> m) b' now ps.
Proof.
  intros Hinv Hk Ham H Hrun. unfold stake in H. res_inv.
  destruct (inv_checkpoint _ _ _ _ _ _ _ _ Hinv Ha1) as ((R' & Hp1 & HRR) & Hn & Hinv1 & Hu).
  destruct o as [u1|]; [|contradiction]. simpl in *.
  destruct (Hu k Hk) as (Hinv2 & Hc & Hb & Ho & Hm & Hpend).
  assert (Hsv : Pool.staking_vault t = Pool.staking_vault p) by (rewrite Hp1; reflexivity).
  assert (Hrv : Pool.reward_vault t = Pool.reward_vault p) by (rewrite Hp1; reflexivity).
  assert (Htot : Pool.total_staked t = Pool.total_staked p) by (rewrite Hp1; reflexivity).
  match goal with |- pool_inv_at ?P (<[k:=?U]> m) _ _ _ => set (un := U) in *; set (pn := P) end.
  assert (Hun : User.balance_staked un = User.balance_staked u1 + amount
                /\ User.reward_per_token_pending un = User.reward_per_token_pending u1
                /\ User.reward_per_token_complete un = User.reward_per_token_complete u1
                /\ User.owner un = User.owner u1)
    by (subst un; destruct (negb _); simpl; auto).
  destruct Hun as (Hunb & Hunp & Hunc & Huno).
  apply bind_Ok in Hrun as (b1 & Hrun & E). injection E as <-.
  apply spl_transfer_Ok in Hrun as (Hown & Hauth & Hle & _ & Hdiff).
  pose proof (inv_total_le _ _ _ _ _ Hinv) as Hts.
  pose proof Hinv as (_ & Hus & _ & _ & _ & _ & _ & _ & Hosv & Horv & _).
  destruct (Hus k u Hk) as (_ & _ & _ & Huo).
  assert (Hfrom_sv : from <> Pool.staking_vault p) by congruence.
  assert (Hfrom_rv : from <> Pool.reward_vault p) by congruence.
  destruct (Hdiff Hfrom_sv) as (_ & Hbsv & Hbound & Hoth).
  assert (Hpn : pn = Pool.set_total_staked (Pool.total_staked t + amount) t).
  { subst pn. rewrite wrapping_add64_small; [reflexivity | lia]. }
  rewrite Hpn, <- (insert_insert_eq m k un u1).
  pose proof (proj1 (proj2 Hinv2)) as Hus2.
  destruct (Hus2 k u1 (lookup_insert_eq _ _ _)) as (Hu1b & Hu1p & Hu1c & Hu1o).
  apply (inv_user_replace t (<[k:=u1]> m) b now ps k u1 un); auto.
  - apply lookup_insert_eq.
  - unfold user_ok. rewrite Hunb, Hunp, Hunc, Huno. lia.
  - lia.
  - apply (solvent_shift t (<[k:=u1]> m) b); [apply Hinv2 | reflexivity | reflexivity |].
    assert (Howed : owed (Pool.reward_per_token_stored t) un
                    = owed (Pool.reward_per_token_stored t) u1).
    { unfold owed. rewrite Hunb, Hunp, Hunc, Hc, Z.sub_diag. ring. }
    unfold reward_debt, scheduled. simpl.
    rewrite (user_sum_insert _ _ _ _ _ (lookup_insert_eq _ _ _)), Howed.
    rewrite Hsv, Hrv. cbv zeta. pose proof PRECISION_pos.
    destruct (Z.eqb_spec (Pool.staking_vault p) (Pool.reward_vault p)) as [E|E].
    + rewrite Hbsv. nia.
    + rewrite Hbsv, (Hoth _ (not_eq_sym Hfrom_rv) (not_eq_sym E)). split; [simpl; lia | nia].
Qed.

Lemma inv_unstake p m b now ps k u to amount p' u' xs b' :
  bank_wf b -> pool_inv_at p m b now ps -> m !! k = Some u -> 0 <= amount <= u64_max ->
  unstake p u to p.(Pool.staking_vault) ps amount now = Ok (p', u', xs) ->
  run_token_instrs b xs = Ok b' ->
  pool_inv_at p' (<[k := u']> m) b' now ps.
Proof.
  intros Hwf Hinv Hk Ham H Hrun. unfold unstake in H. res_inv.
  destruct (inv_checkpoint _ _ _ _ _ _ _ _ Hinv Ha3) as ((R' & Hp1 & HRR) & Hn & Hinv1 & Hu).
  destruct o as [u1|]; [|contradiction]. simpl in *.
  destruct (Hu k Hk) as (Hinv2 & Hc & Hb & Ho & Hm & Hpend).
  assert (Hsv : Pool.staking_vault t = Pool.staking_vault p) by (rewrite Hp1; reflexivity).
  assert (Hrv : Pool.reward_vault t = Pool.reward_vault p) by (rewrite Hp1; reflexivity).
  match goal with |- pool_inv_at ?P (<[k:=?U]> m) _ _ _ => set (un := U) in *; set (pn := P) end.
  assert (Hun : User.balance_staked un = User.balance_staked u1 - amount
                /\ User.reward_per_token_pending un = User.reward_per_token_pending u1
                /\ User.reward_per_token_complete un = User.reward_per_token_complete u1
                /\ User.owner un = User.owner u1)
    by (subst un; destruct (negb _); simpl; auto).
  destruct Hun as (Hunb & Hunp & Hunc & Huno).
  apply bind_Ok in Hrun as (b1 & Hrun & E). injection E as <-.
  apply spl_transfer_balances in Hrun as (Hown & Hauth & Hle & Hsrc & Hoth); [|lia].
  pose proof (proj1 (proj2 Hinv2)) as Hus2.
  destruct (Hus2 k u1 (lookup_insert_eq _ _ _)) as (Hu1b & Hu1p & Hu1c & Hu1o).
  assert (Hle1 : User.balance_staked u1 <= Pool.total_staked t).
  { rewrite (proj1 Hinv2). apply (user_sum_member_le _ _ k); [|apply lookup_insert_eq].
    intros k' u'' Hk'. apply (Hus2 k' u'' Hk'). }
  assert (Hpn : pn = Pool.set_total_staked (Pool.total_staked t - amount) t).
  { subst pn. rewrite wrapping_sub64_small; [reflexivity|].
    pose proof (inv_total_le _ _ _ _ _ Hinv1). pose proof (Hwf (Pool.staking_vault t)). lia. }
  rewrite Hpn, <- (insert_insert_eq m k un u1).
  apply (inv_user_replace t (<[k:=u1]> m) b now ps k u1 un); auto.
  - apply lookup_insert_eq.
  - unfold user_ok. rewrite Hunb, Hunp, Hunc, Huno. lia.
  - lia.
  - apply (solvent_shift t (<[k:=u1]> m) b); [apply Hinv2 | reflexivity | reflexivity |].
    assert (Howed : owed (Pool.reward_per_token_stored t) un
                    = owed (Pool.reward_per_token_stored t) u1).
    { unfold owed. rewrite Hunb, Hunp, Hunc, Hc, Z.sub_diag. ring. }
    unfold reward_debt, scheduled. simpl.
    rewrite (user_sum_insert _ _ _ _ _ (lookup_insert_eq _ _ _)), Howed.
    rewrite Hsv, Hrv. cbv zeta. pose proof PRECISION_pos.
    destruct (Z.eqb_spec (Pool.staking_vault p) (Pool.reward_vault p)) as [E|E].
    + nia.
    + pose proof (Hoth _ (not_eq_sym E)). split; [lia | nia].
Qed.

Lemma inv_claim p m b now ps k u to p' u' xs b' :
  pool_inv_at p m b now ps -> m !! k = Some u ->
  claim p u p.(Pool.reward_vault) to ps (b.(balance) p.(Pool.reward_vault)) now
    = Ok (p', u', xs) ->
  run_token_instrs b xs = Ok b' ->
  pool_inv_at p' (<[k := u']> m) b' now ps.
Proof.
  intros Hinv Hk H Hrun. unfold claim in H. res_inv.
  destruct (inv_checkpoint _ _ _ _ _ _ _ _ Hinv Ha1) as ((R' & Hp1 & HRR) & Hn & Hinv1 & Hu).
  destruct o as [u1|]; [|contradiction]. simpl in H.
  destruct (Hu k Hk) as (Hinv2 & Hc & Hb & Ho & Hm & Hpend).
  set (rv := Pool.reward_vault p) in *.
  assert (Hcase : (p' = t /\ u' = u1 /\ xs = [])
                  \/ (p' = t /\ u' = User.set_reward_per_token_pending 0 u1
                      /\ 0 < User.reward_per_token_pending u1
                      /\ (xs = [] \/ exists r, xs = [Transfer rv to r ps]
                                             /\ 0 < r <= User.reward_per_token_pending u1))).
  { destruct (Z.ltb_spec 0 (User.reward_per_token_pending u1)) as [Hp|Hp];
      [|injection H; intros; subst; left; auto].
    right. destruct (Z.ltb_spec (balance b rv) (User.reward_per_token_pending u1));
      match type of H with context [if 0 <? ?x then _ else _] =>
        destruct (Z.ltb_spec 0 x) end; injection H; intros; subst;
      (split; [reflexivity|]); (split; [reflexivity|]); (split; [exact Hp|]);
      first [left; reflexivity | right; eexists; split; [reflexivity | lia]]. }
  clear H.
  destruct Hcase as [(-> & -> & ->) | (-> & -> & Hp & Hxs)].
  { injection Hrun as <-. exact Hinv2. }
  (* the token accounts after the optional payout *)
  assert (Hb' : token_owner b' = token_owner b
                /\ balance b rv - User.reward_per_token_pending u1 <= balance b' rv
                /\ forall x, x <> rv -> balance b x <= balance b' x).
  { destruct Hxs as [->|(r & -> & Hr)].
    - injection Hrun as <-. repeat split; lia.
    - apply run_one, spl_transfer_balances in Hrun as (Hown & _ & _ & Hsrc & Hoth); [|lia].
      repeat split; [exact Hown | lia | exact Hoth]. }
  destruct Hb' as (Hown & Hbrv & Hoth).
  assert (Hsv : Pool.staking_vault t = Pool.staking_vault p) by (rewrite Hp1; reflexivity).
  assert (Hrv : Pool.reward_vault t = rv) by (rewrite Hp1; reflexivity).
  pose proof (proj1 (proj2 Hinv2)) as Hus2.
  destruct (Hus2 k u1 (lookup_insert_eq _ _ _)) as (Hu1b & Hu1p & Hu1c & Hu1o).
  rewrite <- (set_total_staked_same t), <- (insert_insert_eq m k _ u1).
  apply (inv_user_replace t (<[k:=u1]> m) b now ps k u1); auto.
  - apply lookup_insert_eq.
  - unfold user_ok. simpl. lia.
  - simpl. lia.
  - rewrite set_total_staked_same.
    apply (solvent_shift t (<[k:=u1]> m) b); [apply Hinv2 | reflexivity | reflexivity |].
    assert (Howed : owed (Pool.reward_per_token_stored t) (User.set_reward_per_token_pending 0 u1)
                    = owed (Pool.reward_per_token_stored t) u1
                      - PRECISION * User.reward_per_token_pending u1).
    { unfold owed. simpl. ring. }
    unfold reward_debt.
    rewrite (user_sum_insert _ _ _ _ _ (lookup_insert_eq _ _ _)), Howed.
    rewrite Hsv, Hrv. cbv zeta. pose proof PRECISION_pos.
    destruct (Z.eqb_spec (Pool.staking_vault p) rv) as [E|E].
    + rewrite E. nia.
    + pose proof (Hoth _ E). split; [lia | nia].
Qed.

Lemma inv_fund p m b now ps funder from amount p' xs b' :
  pool_inv_at p m b now ps -> funder <> ps -> 0 <= amount <= u64_max ->
  fund p funder from p.(Pool.reward_vault) amount now = Ok (p', xs) ->
  run_token_instrs b xs = Ok b' ->
  pool_inv_at p' m b' now ps.
Proof.
  intros Hinv Hf Ham H Hrun. unfold fund in H. res_inv.
  destruct (inv_checkpoint _ _ _ _ _ _ _ _ Hinv Ha1) as ((R' & Hp1 & HRR) & _ & Hinv1 & _).
  assert (Hsv : Pool.staking_vault t = Pool.staking_vault p) by (rewrite Hp1; reflexivity).
  assert (Hrv : Pool.reward_vault t = Pool.reward_vault p) by (rewrite Hp1; reflexivity).
  assert (Hlut : Pool.last_update_time t = Z.min now (Pool.reward_duration_end p))
    by (rewrite Hp1; reflexivity).
  assert (Hend : Pool.reward_duration_end t = Pool.reward_duration_end p)
    by (rewrite Hp1; reflexivity).
  pose proof Hinv1 as (Htot & Hus & Hlut1 & Hnow1 & Hd & Hrate & Hmin & HR & Hosv & Horv & Hsol).
  assert (Hd0 : 0 < Pool.reward_duration t) by (unfold MIN_DURATION in Hmin; lia).
  pose proof PRECISION_pos as HP.
  (* the new rate pays out at most the new funds and what was still scheduled *)
  assert (Hr : 0 <= Pool.reward_rate a0
               /\ Pool.reward_duration t * Pool.reward_rate a0 <= amount
                  + Pool.reward_rate t * (Pool.reward_duration_end t - Pool.last_update_time t)
               /\ Pool.reward_duration a0 = Pool.reward_duration t
               /\ Pool.reward_vault a0 = Pool.reward_vault t
               /\ Pool.staking_vault a0 = Pool.staking_vault t
               /\ Pool.total_staked a0 = Pool.total_staked t
               /\ Pool.reward_per_token_stored a0 = Pool.reward_per_token_stored t).
  { clear Hp1. destruct (Z.leb_spec (Pool.reward_duration_end t) now) as [E|E]; res_inv; simpl.
    - assert (Pool.last_update_time t = Pool.reward_duration_end t) by lia.
      pose proof (Z.mul_div_le amount (Pool.reward_duration t)).
      pose proof (Z.div_pos amount (Pool.reward_duration t)). nia.
    - assert (Pool.last_update_time t = now) by lia.
      pose proof (Z.mul_div_le (amount + (Pool.reward_duration_end t - now) * Pool.reward_rate t)
                    (Pool.reward_duration t)).
      assert (0 <= (Pool.reward_duration_end t - now) * Pool.reward_rate t) by nia.
      pose proof (Z.div_pos (amount + (Pool.reward_duration_end t - now) * Pool.reward_rate t)
                    (Pool.reward_duration t)). nia. }
  destruct Hr as (Hr0 & Hr & Hda & Hrva & Hsva & Htota & HRa).
  set (rv := Pool.reward_vault p) in *.
  assert (Hb' : token_owner b' = token_owner b
                /\ balance b' rv = balance b rv + amount
                /\ forall x, x <> rv -> token_owner b x = ps -> balance b' x = balance b x).
  { rewrite Hrv in Horv. destruct (Z.ltb_spec 0 amount).
    - apply run_one, spl_transfer_Ok in Hrun as (Hown & Hauth & _ & _ & Hdiff).
      assert (Hne : from <> rv) by congruence.
      destruct (Hdiff Hne) as (_ & Hto & _ & Hoth).
      split; [exact Hown|]. split; [exact Hto|].
      intros x Hx Hox. apply Hoth; congruence.
    - injection Hrun as <-. repeat split; lia. }
  destruct Hb' as (Hown & Hbrv & Hoth).
  match goal with |- pool_inv_at ?P _ _ _ _ => set (pn := P) end.
  assert (Hpn : Pool.total_staked pn = Pool.total_staked t
                /\ Pool.reward_per_token_stored pn = Pool.reward_per_token_stored t
                /\ Pool.staking_vault pn = Pool.staking_vault t
                /\ Pool.reward_vault pn = rv
                /\ Pool.reward_duration pn = Pool.reward_duration t
                /\ Pool.last_update_time pn = now
                /\ Pool.reward_duration_end pn = now + Pool.reward_duration t
                /\ Pool.reward_rate pn = Pool.reward_rate a0)
    by (subst pn; simpl; rewrite Hda, Hrva, Hsva, Htota, HRa, Hrv; repeat split).
  clearbody pn. destruct Hpn as (Htotn & HRn & Hsvn & Hrvn & Hdn & Hlutn & Hendn & Hraten).
  unfold pool_inv_at. rewrite Hown, Htotn, HRn, Hsvn, Hrvn, Hdn, Hlutn, Hendn, Hraten.
  split; [exact Htot|].
  split; [intros k u Hk; apply (user_ok_mono t); [rewrite HRn; lia | exact (Hus k u Hk)]|].
  split; [lia|]. split; [lia|]. split; [lia|]. split; [lia|]. split; [lia|]. split; [lia|].
  split; [exact Hosv|]. split; [rewrite <- Hrv; exact Horv|].
  apply (solvent_shift t m b); [exact Hsol | congruence | congruence |].
  unfold reward_debt, scheduled. rewrite Htotn, HRn, Hlutn, Hendn, Hraten.
  assert (PRECISION * (Pool.reward_duration t * Pool.reward_rate a0)
          <= PRECISION * (amount + Pool.reward_rate t
                                   * (Pool.reward_duration_end t - Pool.last_update_time t)))
    by (apply Z.mul_le_mono_nonneg_l; lia).
  rewrite Hsv, Hrv. cbv zeta.
  destruct (Z.eqb_spec (Pool.staking_vault p) rv) as [E|E].
  - rewrite E, Hbrv. nia.
  - rewrite Hbrv, (Hoth _ E); [|rewrite <- Hsv; exact Hosv]. split; [lia | nia].
Qed.

(** ** Token accounts stay within [u64] *)

Definition xfer_nonneg (i : TokenInstr) : Prop :=
  match i with
  | Transfer _ _ amount _ => 0 <= amount
  | CloseAccount _ _ => True
  end.

Lemma spl_transfer_wf b from to amount auth b' :
  bank_wf b -> 0 <= amount -> spl_transfer b from to amount auth = Ok b' -> bank_wf b'.
Proof.
  intros Hwf Ha H x. apply spl_transfer_Ok in H as (_ & _ & Hle & Hsame & Hdiff).
  destruct (Z.eq_dec from to) as [E|E]; [rewrite (Hsame E); apply Hwf|].
  destruct (Hdiff E) as (Hf & Ht & Hb & Hoth). pose proof (Hwf x). pose proof (Hwf from).
  pose proof (Hwf to).
  destruct (Z.eq_dec x from) as [->|Ef]; [rewrite Hf; lia|].
  destruct (Z.eq_dec x to) as [->|Et]; [rewrite Ht; lia|].
  rewrite (Hoth x Ef Et). lia.
Qed.

Lemma run_token_instrs_wf b xs b' :
  bank_wf b -> Forall xfer_nonneg xs -> run_token_instrs b xs = Ok b' -> bank_wf b'.
Proof.
  revert b. induction xs as [|[f t a au|ac au] xs IH]; intros b Hwf Hxs H; simpl in H.
  - injection H as <-. exact Hwf.
  - inversion Hxs as [|? ? Ha Hxs']; subst. simpl in Ha.
    apply bind_Ok in H as (b1 & H1 & H). exact (IH b1 (spl_transfer_wf _ _ _ _ _ _ Hwf Ha H1) Hxs' H).
  - inversion Hxs as [|? ? _ Hxs']; subst.
    apply bind_Ok in H as (b1 & H1 & H). unfold spl_close_account in H1.
    destruct (negb _); [discriminate|]. destruct (negb _); [discriminate|].
    injection H1 as <-. exact (IH b Hwf Hxs' H).
Qed.

Ltac xfers_tac :=
  repeat (res_inv; match goal with
                   | H : (if ?c then _ else _) = Ok _ |- _ => destruct c eqn:?
                   end);
  res_inv;
  repeat (apply Forall_app; split);
  repeat match goal with
  | |- context [if ?c then _ else _] => destruct c eqn:?
  end;
  repeat constructor; simpl; rewrite ?Z.ltb_lt in *; lia.

Lemma stake_xfers p u f sv amount now p' u' xs :
  0 <= amount -> stake p u f sv amount now = Ok (p', u', xs) -> Forall xfer_nonneg xs.
Proof. intros Ha H. unfold stake in H. xfers_tac. Qed.

Lemma unstake_xfers p u t sv ps amount now p' u' xs :
  0 <= amount -> unstake p u t sv ps amount now = Ok (p', u', xs) -> Forall xfer_nonneg xs.
Proof. intros Ha H. unfold unstake in H. xfers_tac. Qed.

Lemma fund_xfers p f from rv amount now p' xs :
  fund p f from rv amount now = Ok (p', xs) -> Forall xfer_nonneg xs.
Proof. intros H. unfold fund in H. xfers_tac. Qed.

Lemma claim_xfers p u rv t ps v now p' u' xs :
  claim p u rv t ps v now = Ok (p', u', xs) -> Forall xfer_nonneg xs.
Proof. intros H. unfold claim in H. xfers_tac. Qed.

Lemma close_pool_xfers p b sr rr ps now xs :
  close_pool p b sr rr ps now = Ok xs -> Forall xfer_nonneg xs.
Proof. intros H. unfold close_pool in H. xfers_tac. Qed.

(** ** The invariant of reachable states *)

Definition state_inv (s : State) : Prop := bank_wf s.(st_bank) /\ pool_inv s.

Lemma step_inv s s' : state_inv s -> step s s' -> state_inv s'.
Proof.
  intros Hst Hs. revert Hst.
  destruct Hs as [s p o bump p' u Hp Hne H | s p p' Hp H | s p p' Hp H
                 | s p o u f a p' u' xs b' Hp Hk Ha H Hrun
                 | s p o u t a p' u' xs b' Hp Hk Ha H Hrun
                 | s p f p' Hp H | s p f p' Hp H
                 | s p fu f a p' xs b' Hp Hne Ha H Hrun
                 | s p o u t p' u' xs b' Hp Hk H Hrun
                 | s p o u p' Hp Hk H
                 | s p sr rr xs b' Hp H Hrun
                 | s n Hle | s b' Henv];
    intros (Hwf & Hinv); unfold state_inv, pool_inv in *; simpl in *;
    try rewrite Hp in Hinv.
  - split; [exact Hwf | exact (inv_create_user _ _ _ _ _ _ _ _ _ _ Hinv Hne H)].
  - split; [exact Hwf | exact (inv_pause _ _ _ _ _ _ Hinv H)].
  - split; [exact Hwf | exact (inv_unpause _ _ _ _ _ _ Hinv H)].
  - split; [exact (run_token_instrs_wf _ _ _ Hwf (stake_xfers _ _ _ _ _ _ _ _ _ (proj1 Ha) H) Hrun)|].
    exact (inv_stake _ _ _ _ _ _ _ _ _ _ _ _ _ Hinv Hk Ha H Hrun).
  - split; [exact (run_token_instrs_wf _ _ _ Hwf (unstake_xfers _ _ _ _ _ _ _ _ _ _ (proj1 Ha) H) Hrun)|].
    exact (inv_unstake _ _ _ _ _ _ _ _ _ _ _ _ _ Hwf Hinv Hk Ha H Hrun).
  - split; [exact Hwf | exact (inv_authorize_funder _ _ _ _ _ _ _ Hinv H)].
  - split; [exact Hwf | exact (inv_deauthorize_funder _ _ _ _ _ _ _ Hinv H)].
  - split; [exact (run_token_instrs_wf _ _ _ Hwf (fund_xfers _ _ _ _ _ _ _ _ H) Hrun)|].
    exact (inv_fund _ _ _ _ _ _ _ _ _ _ _ Hinv Hne Ha H Hrun).
  - split; [exact (run_token_instrs_wf _ _ _ Hwf (claim_xfers _ _ _ _ _ _ _ _ _ _ H) Hrun)|].
    exact (inv_claim _ _ _ _ _ _ _ _ _ _ _ _ Hinv Hk H Hrun).
  - split; [exact Hwf | exact (inv_close_user _ _ _ _ _ _ _ _ Hinv Hk H)].
  - split; [exact (run_token_instrs_wf _ _ _ Hwf (close_pool_xfers _ _ _ _ _ _ _ H) Hrun) | exact I].
  - split; [exact Hwf|]. destruct (st_pool s); [exact (inv_tick _ _ _ _ _ _ Hinv Hle) | exact I].
  - split; [apply Henv|]. destruct (st_pool s); [exact (inv_bank _ _ _ _ _ _ Hinv Henv) | exact I].
Qed.

Lemma reachable_inv s : reachable s -> state_inv s.
Proof.
  induction 1 as [authority nonce sm sv rm rv d lock nt p b now key ps Hinit Hwf Hsv Hrv
                 | s s' _ IH Hs].
  - split; [exact Hwf|]. exact (inv_init _ _ _ _ _ _ _ _ _ _ _ _ _ Hinit Hwf Hsv Hrv).
  - exact (step_inv s s' IH Hs).
Qed.

(** ** The accumulator never decreases *)

Lemma checkpoint_R_mono p ou ts now p1 ou1 :
  0 <= p.(Pool.reward_rate) -> 0 <= ts ->
  update_rewards p ou ts now = Ok (p1, ou1) ->
  p.(Pool.reward_per_token_stored) <= p1.(Pool.reward_per_token_stored).
Proof.
  intros Hrate Hts H. apply update_rewards_Ok in H as (rpt & -> & _ & -> & Hb & _). simpl.
  destruct (Z.eqb_spec ts 0) as [E|E]; [lia|].
  destruct (Hb E) as (Hle & _ & _). pose proof PRECISION_pos.
  assert (0 <= (Z.min now (Pool.reward_duration_end p) - Pool.last_update_time p)
               * Pool.reward_rate p * PRECISION)
    by (apply Z.mul_nonneg_nonneg; [apply Z.mul_nonneg_nonneg|]; lia).
  pose proof (Z.div_pos _ ts H0 ltac:(lia)). lia.
Qed.

Ltac R_mono_tac Hrate Hts :=
  repeat (res_inv; try match goal with
                       | H : (if ?c then _ else _) = Ok _ |- _ => destruct c
                       end);
  match goal with
  | Hc : update_rewards _ _ _ _ = Ok _ |- _ =>
      pose proof (checkpoint_R_mono _ _ _ _ _ _ Hrate Hts Hc)
  end;
  simpl; lia.

Lemma step_R_mono s s' p p' :
  state_inv s -> step s s' -> s.(st_pool) = Some p -> s'.(st_pool) = Some p' ->
  p.(Pool.reward_per_token_stored) <= p'.(Pool.reward_per_token_stored).
Proof.
  intros Hst Hs. revert Hst.
  destruct Hs as [s q o bump q' u Hq Hne H | s q q' Hq H | s q q' Hq H
                 | s q o u f a q' u' xs b' Hq Hk Ha H Hrun
                 | s q o u t a q' u' xs b' Hq Hk Ha H Hrun
                 | s q f q' Hq H | s q f q' Hq H
                 | s q fu f a q' xs b' Hq Hne Ha H Hrun
                 | s q o u t q' u' xs b' Hq Hk H Hrun
                 | s q o u q' Hq Hk H
                 | s q sr rr xs b' Hq H Hrun
                 | s n Hle | s b' Henv];
    intros (_ & Hinv) E E'; unfold pool_inv in Hinv; simpl in *;
    try (rewrite E in Hq; injection Hq as <-; injection E' as <-);
    try (rewrite E in E'; injection E' as <-; lia);
    try discriminate;
    rewrite E in Hinv;
    pose proof (inv_total_le _ _ _ _ _ Hinv) as [Hts _];
    pose proof Hinv as (_ & _ & _ & _ & _ & Hrate & _).
  - unfold create_user in H. res_inv. simpl. lia.
  - unfold pause in H. res_inv. simpl. lia.
  - unfold unpause in H. res_inv. simpl. lia.
  - unfold stake in H. R_mono_tac Hrate Hts.
  - unfold unstake in H. R_mono_tac Hrate Hts.
  - unfold authorize_funder in H. res_inv.
    destruct (position _ _); [res_inv; simpl; lia | discriminate].
  - unfold deauthorize_funder in H. res_inv.
    destruct (position _ _); [res_inv; simpl; lia | discriminate].
  - unfold fund in H. R_mono_tac Hrate Hts.
  - unfold claim in H. R_mono_tac Hrate Hts.
  - unfold close_user in H. res_inv. simpl. lia.
Qed.

(** ** A concrete run

    Pool key 8, PDA signer 7; both vaults (3 and 5) and every other account
    belong to the PDA except the staker's token account 11 (1000 tokens,
    owner 10) and the funder's token account 12 (1000000 tokens, owner 1,
    the pool authority).  The pool is initialised at time 500, user 10
    opens an account and stakes 20, the authority funds 864000 over one
    day, the clock moves to 1500 and user 10 claims. *)
Definition ex_bank0 : Bank :=
  mkBank (fun x => if x =? 11 then 1000 else if x =? 12 then 1000000 else 0)
         (fun x => if x =? 11 then 10 else if x =? 12 then 1 else 7).

Definition bank_after (b : Bank) (xs : list TokenInstr) : Bank :=
  match run_token_instrs b xs with Ok b' => b' | Err _ => b end.

Definition ex_pool0 : Pool.t :=
  Pool.mk 1 255 false 2 3 4 5 86400 0 100 0 0 0 0 0 false [0; 0; 0; 0; 0].
Definition ex_s0 : State := mkState (Some ex_pool0) ∅ ex_bank0 500 8 7.

Definition ex_pool1 : Pool.t := Pool.set_user_stake_count 1 ex_pool0.
Definition ex_user1 : User.t := User.mk 8 10 0 0 0 0 0 254.
Definition ex_s1 : State :=
  with_accounts ex_s0 (Some ex_pool1) (<[10 := ex_user1]> ex_s0.(st_users)) ex_s0.(st_bank).

Definition ex_pool2 : Pool.t := Pool.set_total_staked 20 ex_pool1.
Definition ex_user2 : User.t := User.mk 8 10 0 0 20 600 0 254.
Definition ex_bank2 : Bank := bank_after ex_bank0 [Transfer 11 3 20 10].
Definition ex_s2 : State :=
  with_accounts ex_s1 (Some ex_pool2) (<[10 := ex_user2]> ex_s1.(st_users)) ex_bank2.

Definition ex_pool3 : Pool.t :=
  Pool.set_reward_duration_end 86900
    (Pool.set_last_update_time 500 (Pool.set_reward_rate 10 ex_pool2)).
Definition ex_bank3 : Bank := bank_after ex_bank2 [Transfer 12 5 864000 1].
Definition ex_s3 : State := with_accounts ex_s2 (Some ex_pool3) ex_s2.(st_users) ex_bank3.

Definition ex_s4 : State :=
  mkState ex_s3.(st_pool) ex_s3.(st_users) ex_s3.(st_bank) 1500 8 7.

Definition ex_pool5 : Pool.t :=
  Pool.set_reward_per_token_stored (500 * PRECISION)
    (Pool.set_last_update_time 1500 ex_pool3).
Definition ex_user5 : User.t := User.mk 8 10 (500 * PRECISION) 0 20 600 0 254.
Definition ex_bank5 : Bank := bank_after ex_bank3 [Transfer 5 11 10000 7].
Definition ex_s5 : State :=
  with_accounts ex_s4 (Some ex_pool5) (<[10 := ex_user5]> ex_s4.(st_users)) ex_bank5.

Lemma ex_bank0_wf : bank_wf ex_bank0.
Proof. intros x. unfold ex_bank0; simpl. unfold u64_max. repeat case_match; lia. Qed.

Lemma ex_step01 : step ex_s0 ex_s1.
Proof.
  apply (step_create_user ex_s0 ex_pool0 10 254); [reflexivity | simpl; lia | vm_compute; reflexivity].
Qed.

Lemma ex_step12 : step ex_s1 ex_s2.
Proof.
  apply (step_stake ex_s1 ex_pool1 10 ex_user1 11 20 ex_pool2 ex_user2 [Transfer 11 3 20 10]);
    [reflexivity | reflexivity | unfold u64_max; lia | vm_compute; reflexivity
    | vm_compute; reflexivity].
Qed.

Lemma ex_step23 : step ex_s2 ex_s3.
Proof.
  apply (step_fund ex_s2 ex_pool2 1 12 864000 ex_pool3 [Transfer 12 5 864000 1]);
    [reflexivity | simpl; lia | unfold u64_max; lia | vm_compute; reflexivity
    | vm_compute; reflexivity].
Qed.

Lemma ex_step34 : step ex_s3 ex_s4.
Proof. apply (step_tick ex_s3 1500). simpl; lia. Qed.

Lemma ex_step45 : step ex_s4 ex_s5.
Proof.
  apply (step_claim ex_s4 ex_pool3 10 ex_user2 11 ex_pool5 ex_user5 [Transfer 5 11 10000 7]);
    [reflexivity | reflexivity | vm_compute; reflexivity | vm_compute; reflexivity].
Qed.

Lemma ex_s0_reachable : reachable ex_s0.
Proof.
  apply (reach_init 1 255 2 3 4 5 86400 100 false); [vm_compute; reflexivity | exact ex_bank0_wf
    | reflexivity | reflexivity].
Qed.

Lemma ex_s4_reachable : reachable ex_s4.
Proof.
  eapply reach_step; [|exact ex_step34].
  eapply reach_step; [|exact ex_step23].
  eapply reach_step; [|exact ex_step12].
  eapply reach_step; [|exact ex_step01].
  exact ex_s0_reachable.
Qed.

Lemma ex_s5_reachable : reachable ex_s5.
Proof. eapply reach_step; [exact ex_s4_reachable | exact ex_step45]. Qed.

(** ** The claims *)

(** C2: in every state reachable from an initialised pool through the
    instructions (and moves of the clock and of foreign token accounts), as
    long as the pool is open, its [total_staked] equals the sum of
    [balance_staked] over the open user accounts of the pool. *)
Theorem total_staked_eq_user_sum s p :
  reachable s -> s.(st_pool) = Some p ->
  p.(Pool.total_staked) = user_sum User.balance_staked s.(st_users).
Proof.
  intros Hr Hp. destruct (reachable_inv s Hr) as [_ Hinv].
  unfold pool_inv in Hinv. rewrite Hp in Hinv. exact (proj1 Hinv).
Qed.

Lemma total_staked_eq_user_sum_witness :
  ex_s5.(st_pool) = Some ex_pool5 /\
  ex_pool5.(Pool.total_staked) = user_sum User.balance_staked ex_s5.(st_users).
Proof.
  split; [reflexivity|].
  apply (total_staked_eq_user_sum ex_s5 ex_pool5); [exact ex_s5_reachable | reflexivity].
Defined.

(** C3: [reward_per_token_stored] never decreases.  In a reachable state
    with an open pool [p], every checkpoint of [p] (with the pool's
    [total_staked], at any clock reading) leaves it at least as large, and
    so does every transition to a state in which the pool is still open. *)
Theorem reward_per_token_stored_monotone s p :
  reachable s -> s.(st_pool) = Some p ->
  (forall ou now p1 ou1,
     update_rewards p ou p.(Pool.total_staked) now = Ok (p1, ou1) ->
     p.(Pool.reward_per_token_stored) <= p1.(Pool.reward_per_token_stored))
  /\ (forall s' p', step s s' -> s'.(st_pool) = Some p' ->
     p.(Pool.reward_per_token_stored) <= p'.(Pool.reward_per_token_stored)).
Proof.
  intros Hr Hp. pose proof (reachable_inv s Hr) as Hst.
  pose proof Hst as [_ Hinv]. unfold pool_inv in Hinv. rewrite Hp in Hinv.
  split.
  - intros ou now p1 ou1 H.
    pose proof (inv_total_le _ _ _ _ _ Hinv) as [Hts _].
    pose proof Hinv as (_ & _ & _ & _ & _ & Hrate & _).
    exact (checkpoint_R_mono _ _ _ _ _ _ Hrate Hts H).
  - intros s' p' Hs Hp'. exact (step_R_mono s s' p p' Hst Hs Hp Hp').
Qed.

Lemma reward_per_token_stored_monotone_witness :
  ex_s4.(st_pool) = Some ex_pool3 /\
  ex_pool3.(Pool.reward_per_token_stored) <= ex_pool5.(Pool.reward_per_token_stored).
Proof.
  split; [reflexivity|].
  apply (proj2 (reward_per_token_stored_monotone ex_s4 ex_pool3 ex_s4_reachable eq_refl)
           ex_s5 ex_pool5 ex_step45 eq_refl).
Defined.

(** The example pool paused right after its initialisation (its reward
    period ended at 0 < 500). *)
Definition ex_pool_paused : Pool.t := Pool.set_paused true ex_pool0.
Definition ex_s_paused : State :=
  with_accounts ex_s0 (Some ex_pool_paused) ex_s0.(st_users) ex_s0.(st_bank).

Lemma ex_s_paused_reachable : reachable ex_s_paused.
Proof.
  eapply reach_step; [exact ex_s0_reachable|].
  apply (step_pause ex_s0 ex_pool0); reflexivity.
Qed.

(** C4: [create_user] never succeeds on a paused pool.  If the user
    account exists already it fails on the [init] of that account; otherwise,
    on a paused pool, it fails with [PoolPaused] (the [constraint =
    !pool.paused] of [CreateUser]).  On an unpaused pool with no user account
    yet it fails only if [user_stake_count + 1] overflows a [u32], and
    otherwise increments [user_stake_count] and returns the zeroed user
    record. *)
Theorem create_user_result p user_exists pool_key owner bump :
  create_user p user_exists pool_key owner bump =
  if user_exists then Err AccountError
  else if p.(Pool.paused) then Err (Program PoolPaused)
  else if p.(Pool.user_stake_count) + 1 <=? u32_max
  then Ok (Pool.set_user_stake_count (p.(Pool.user_stake_count) + 1) p,
           User.mk pool_key owner 0 0 0 0 0 bump)
  else Err Panic.
Proof.
  unfold create_user, checked_add.
  destruct user_exists, (Pool.paused p); simpl; try reflexivity.
  destruct (_ <=? u32_max); reflexivity.
Qed.

(** C4 fails on the reachable state [ex_s_paused]: the pool is paused and a
    fresh user's [create_user] fails with [PoolPaused]. *)
Lemma create_user_paused_counterexample :
  reachable ex_s_paused /\ ex_s_paused.(st_pool) = Some ex_pool_paused
  /\ ex_pool_paused.(Pool.paused) = true
  /\ ex_s_paused.(st_users) !! 10 = None
  /\ create_user ex_pool_paused false ex_s_paused.(st_pool_key) 10 254
     = Err (Program PoolPaused).
Proof.
  split; [exact ex_s_paused_reachable|].
  split; [reflexivity|]. split; [reflexivity|]. split; reflexivity.
Qed.


Lemma ex_s1_reachable : reachable ex_s1.
Proof. eapply reach_step; [exact ex_s0_reachable | exact ex_step01]. Qed.


(** C6: a successful [fund] (the funder is the authority or a listed
    funder, the pool unpaused) checkpoints the pool without a user, then
    sets [reward_rate] to [amount / reward_duration] if the period has ended
    ([reward_duration_end <= now]), and to [(amount + (reward_duration_end -
    now) * reward_rate) / reward_duration] otherwise (truncating division);
    afterwards [last_update_time = now] and [reward_duration_end = now +
    reward_duration].  The checkpoint changes none of [reward_duration_end],
    [reward_rate] and [reward_duration], so the values of the pool before
    the call may be used. *)
Theorem fund_schedule p funder from reward_vault amount now p' xs :
  fund p funder from reward_vault amount now = Ok (p', xs) ->
  p'.(Pool.reward_rate) =
    (if p.(Pool.reward_duration_end) <=? now
     then amount / p.(Pool.reward_duration)
     else (amount + (p.(Pool.reward_duration_end) - now) * p.(Pool.reward_rate))
          / p.(Pool.reward_duration))
  /\ p'.(Pool.last_update_time) = now
  /\ p'.(Pool.reward_duration_end) = now + p.(Pool.reward_duration).
Proof.
  intros H. unfold fund in H. res_inv.
  match goal with
  | Hc : update_rewards _ _ _ _ = Ok _ |- _ => apply update_rewards_Ok in Hc as (rpt & -> & _)
  end.
  simpl in *.
  destruct (Z.leb_spec (Pool.reward_duration_end p) now); res_inv; simpl; repeat split; lia.
Qed.

Lemma fund_schedule_witness :
  fund ex_pool2 1 12 5 864000 500 = Ok (ex_pool3, [Transfer 12 5 864000 1]) /\
  ex_pool3.(Pool.reward_rate) = 864000 / 86400 /\
  ex_pool3.(Pool.last_update_time) = 500 /\
  ex_pool3.(Pool.reward_duration_end) = 500 + 86400.
Proof.
  assert (H : fund ex_pool2 1 12 5 864000 500 = Ok (ex_pool3, [Transfer 12 5 864000 1]))
    by (vm_compute; reflexivity).
  split; [exact H|].
  exact (fund_schedule ex_pool2 1 12 5 864000 500 ex_pool3 _ H).
Defined.

(** C7: once [claim] is past its maturity check ([maturity_time <= now],
    [now] a valid [u64]) and its checkpoint has produced a pending reward
    [pending > 0], a reward vault holding [v < pending] tokens makes the
    claim succeed all the same: it pays exactly [v] (no transfer when [v =
    0]) and sets the user's pending reward to 0. *)
Theorem claim_clamps_to_vault p u reward_vault to ps v now p1 u1 :
  0 <= now <= u64_max -> u.(User.maturity_time) <= now ->
  update_rewards p (Some u) p.(Pool.total_staked) now = Ok (p1, Some u1) ->
  0 < u1.(User.reward_per_token_pending) -> v < u1.(User.reward_per_token_pending) ->
  claim p u reward_vault to ps v now
  = Ok (p1, User.set_reward_per_token_pending 0 u1,
        if 0 <? v then [Transfer reward_vault to v ps] else []).
Proof.
  intros Hn Hm Hc Hpos Hv. unfold claim.
  assert (Ht : u64_try_from now = Some now).
  { unfold u64_try_from. rewrite (proj2 (Z.leb_le _ _) (proj1 Hn)),
      (proj2 (Z.leb_le _ _) (proj2 Hn)). reflexivity. }
  rewrite Ht. unfold res_bind at 1, unwrap at 1.
  rewrite (proj2 (Z.ltb_ge _ _) Hm). unfold res_bind at 1, require at 1. simpl negb.
  cbv iota beta. rewrite Hc. unfold res_bind at 1. cbv iota beta. simpl default.
  rewrite (proj2 (Z.ltb_lt _ _) Hpos), (proj2 (Z.ltb_lt _ _) Hv).
  destruct (0 <? v); reflexivity.
Qed.

Lemma claim_clamps_to_vault_witness :
  example_user_checkpointed.(User.reward_per_token_pending) = 843 /\
  claim example_pool example_user 5 11 7 300 400
  = Ok (example_pool_checkpointed, User.set_reward_per_token_pending 0 example_user_checkpointed,
        [Transfer 5 11 300 7]).
Proof.
  split; [reflexivity|].
  apply (claim_clamps_to_vault example_pool example_user 5 11 7 300 400);
    [unfold u64_max; lia | simpl; lia | vm_compute; reflexivity | simpl; lia | simpl; lia].
Defined.

(** ** The pause flag in [unstake] and [claim] *)

Definition repause {A B} (b : bool) (r : res (Pool.t * A * B)) : res (Pool.t * A * B) :=
  match r with Ok (q, x, y) => Ok (Pool.set_paused b q, x, y) | Err e => Err e end.

Lemma update_rewards_set_paused b p ou ts now :
  update_rewards (Pool.set_paused b p) ou ts now =
  match update_rewards p ou ts now with
  | Ok (q, o) => Ok (Pool.set_paused b q, o)
  | Err e => Err e
  end.
Proof.
  unfold update_rewards. destruct p. cbn [Pool.set_paused Pool.reward_duration_end
    Pool.reward_per_token_stored Pool.last_update_time Pool.reward_rate].
  destruct (last_time_reward_applicable _ _) as [lt|e]; cbn [res_bind]; [|reflexivity].
  destruct (reward_per_token _ _ _ _ _) as [r|e]; cbn [res_bind]; [|reflexivity].
  destruct ou as [u|]; [|reflexivity].
  destruct (earned _ _ _ _); reflexivity.
Qed.

Lemma unstake_set_paused b p u to sv ps amount now :
  unstake (Pool.set_paused b p) u to sv ps amount now
  = repause b (unstake p u to sv ps amount now).
Proof.
  unfold unstake.
  destruct (negb (amount =? 0)); cbn [require res_bind]; [|reflexivity].
  destruct (u64_try_from now) as [n|]; cbn [unwrap res_bind]; [|reflexivity].
  destruct (negb (n <? _)); cbn [require res_bind]; [|reflexivity].
  destruct (negb (_ <? amount)); cbn [require res_bind]; [|reflexivity].
  change (Pool.total_staked (Pool.set_paused b p)) with (Pool.total_staked p).
  rewrite update_rewards_set_paused.
  destruct (update_rewards p _ _ _) as [[q o]|e]; cbn [res_bind]; [|reflexivity].
  destruct (checked_sub _ _); cbn [unwrap res_bind]; [|reflexivity].
  destruct q; reflexivity.
Qed.

Lemma claim_set_paused b p u rv to ps v now :
  claim (Pool.set_paused b p) u rv to ps v now = repause b (claim p u rv to ps v now).
Proof.
  unfold claim.
  destruct (u64_try_from now) as [n|]; cbn [unwrap res_bind]; [|reflexivity].
  destruct (negb (n <? _)); cbn [require res_bind]; [|reflexivity].
  change (Pool.total_staked (Pool.set_paused b p)) with (Pool.total_staked p).
  rewrite update_rewards_set_paused.
  destruct (update_rewards p _ _ _) as [[q o]|e]; cbn [res_bind]; [|reflexivity].
  repeat case_match; reflexivity.
Qed.

Lemma set_paused_same p : Pool.set_paused p.(Pool.paused) p = p.
Proof. destruct p; reflexivity. Qed.

Lemma set_paused_twice b b' p : Pool.set_paused b (Pool.set_paused b' p) = Pool.set_paused b p.
Proof. destruct p; reflexivity. Qed.

(** C8: on a paused pool, [stake] of a nonzero amount and [fund] (whoever
    the funder) fail with [PoolPaused], while the pause has no effect on
    [unstake] and [claim]: each gives exactly the result it gives on the same
    pool unpaused (with the pool still marked paused afterwards); in
    particular neither is rejected because of the pause. *)
Theorem pause_asymmetry p u from to sv rv ps funder amount v now :
  p.(Pool.paused) = true ->
  (amount <> 0 -> stake p u from sv amount now = Err (Program PoolPaused))
  /\ fund p funder from rv amount now = Err (Program PoolPaused)
  /\ unstake p u to sv ps amount now
     = repause true (unstake (Pool.set_paused false p) u to sv ps amount now)
  /\ claim p u rv to ps v now = repause true (claim (Pool.set_paused false p) u rv to ps v now).
Proof.
  intros Hp. split; [|split; [|split]].
  - intros Ha. unfold stake. rewrite (proj2 (Z.eqb_neq _ _) Ha), Hp. reflexivity.
  - unfold fund. rewrite Hp. reflexivity.
  - rewrite <- unstake_set_paused, set_paused_twice, <- Hp, set_paused_same. reflexivity.
  - rewrite <- claim_set_paused, set_paused_twice, <- Hp, set_paused_same. reflexivity.
Qed.

Lemma pause_asymmetry_witness :
  unstake (Pool.set_paused true ex_pool2) ex_user2 11 3 7 20 700
  = repause true (unstake ex_pool2 ex_user2 11 3 7 20 700) /\
  stake (Pool.set_paused true ex_pool2) ex_user2 11 3 20 700 = Err (Program PoolPaused).
Proof.
  destruct (pause_asymmetry (Pool.set_paused true ex_pool2) ex_user2 11 11 3 5 7 1 20 0 700
              eq_refl) as (Hs & _ & Hu & _).
  split; [exact Hu | apply Hs; discriminate].
Defined.

Lemma update_rewards_Err p ou ts now e :
  update_rewards p ou ts now = Err e -> e = Panic.
Proof.
  unfold update_rewards, last_time_reward_applicable, reward_per_token, earned,
    res_bind, unwrap.
  repeat case_match; congruence.
Qed.

(** C9: for a nonzero amount and a clock reading that is a valid [u64],
    [unstake] fails with the maturity error [CannotStakeOrClaimBeforeMaturity]
    exactly when [now < maturity_time] (at [now = maturity_time] the check
    passes); an [unstake] of 0 fails with [AmountMustBeGreaterThanZero]
    whatever the clock reading, the zero-amount check coming first; a
    successful [stake] at time [t] sets [maturity_time] to
    [t + lock_period]. *)
Theorem unstake_maturity p u to sv ps amount now :
  (amount <> 0 -> 0 <= now <= u64_max ->
   (unstake p u to sv ps amount now = Err (Program CannotStakeOrClaimBeforeMaturity)
    <-> now < u.(User.maturity_time)))
  /\ (amount = 0 ->
      unstake p u to sv ps amount now = Err (Program AmountMustBeGreaterThanZero))
  /\ (forall from t p' u' xs, stake p u from sv amount t = Ok (p', u', xs) ->
      u'.(User.maturity_time) = t + p.(Pool.lock_period)).
Proof.
  split; [|split].
  - intros Ha Hn.
    unfold unstake. rewrite (proj2 (Z.eqb_neq _ _) Ha). cbn [negb require res_bind].
    assert (Ht : u64_try_from now = Some now).
    { unfold u64_try_from. rewrite (proj2 (Z.leb_le _ _) (proj1 Hn)),
        (proj2 (Z.leb_le _ _) (proj2 Hn)). reflexivity. }
    rewrite Ht. cbn [unwrap res_bind].
    destruct (Z.ltb_spec now (User.maturity_time u)) as [E|E]; cbn [negb require res_bind].
    + split; [lia | reflexivity].
    + split; [|lia]. intros H. exfalso.
      destruct (negb (_ <? amount)); cbn [require res_bind] in H; [|discriminate].
      destruct (update_rewards _ _ _ _) as [[q o]|e] eqn:Hc; cbn [res_bind] in H.
      * destruct (checked_sub _ _); cbn [unwrap res_bind] in H; discriminate.
      * apply update_rewards_Err in Hc. congruence.
  - intros ->. reflexivity.
  - intros from t p' u' xs H. unfold stake in H. res_inv.
    match goal with
    | Hc : update_rewards _ _ _ _ = Ok _ |- _ => apply update_rewards_Ok in Hc as (rpt & -> & _)
    end.
    destruct (negb _); reflexivity.
Qed.

Lemma unstake_maturity_witness :
  unstake ex_pool2 ex_user2 11 3 7 20 599 = Err (Program CannotStakeOrClaimBeforeMaturity)
  /\ unstake ex_pool2 ex_user2 11 3 7 0 550 = Err (Program AmountMustBeGreaterThanZero)
  /\ ex_user2.(User.maturity_time) = 500 + ex_pool1.(Pool.lock_period).
Proof.
  split; [|split].
  - apply (proj1 (unstake_maturity ex_pool2 ex_user2 11 3 7 20 599)
             ltac:(lia) ltac:(unfold u64_max; lia)).
    simpl; lia.
  - exact (proj1 (proj2 (unstake_maturity ex_pool2 ex_user2 11 3 7 0 550)) eq_refl).
  - apply (proj2 (proj2 (unstake_maturity ex_pool1 ex_user1 11 3 7 20 500)) 11 500 ex_pool2
             ex_user2 [Transfer 11 3 20 10]).
    vm_compute; reflexivity.
Defined.

Lemma ex_s2_reachable : reachable ex_s2.
Proof.
  eapply reach_step; [|exact ex_step12].
  eapply reach_step; [|exact ex_step01].
  exact ex_s0_reachable.
Qed.

(** C9 fails for a zero amount: user 10 of the reachable state [ex_s2]
    staked at 500 with [lock_period = 100], so [maturity_time = 600]; an
    [unstake] of 0 at 550 fails with [AmountMustBeGreaterThanZero], not
    with the maturity error. *)
Lemma unstake_zero_before_maturity_counterexample :
  reachable ex_s2 /\ ex_s2.(st_users) !! 10 = Some ex_user2
  /\ 550 < ex_user2.(User.maturity_time)
  /\ unstake ex_pool2 ex_user2 11 3 7 0 550 = Err (Program AmountMustBeGreaterThanZero).
Proof.
  split; [exact ex_s2_reachable|]. split; [reflexivity|].
  split; [simpl; lia | reflexivity].
Qed.

(** The emission still scheduled fits in the reward vault, so it is a [u64]. *)
Lemma inv_scheduled_bound p m b now ps :
  bank_wf b -> pool_inv_at p m b now ps ->
  p.(Pool.reward_rate) * (p.(Pool.reward_duration_end) - p.(Pool.last_update_time))
  <= u64_max.
Proof.
  intros Hwf Hinv. pose proof (inv_total_le _ _ _ _ _ Hinv) as Hts.
  pose proof Hinv as (_ & Hus & _ & _ & _ & _ & _ & _ & _ & _ & Hsol).
  pose proof (user_sum_owed_nonneg _ m ps p eq_refl Hus).
  pose proof PRECISION_pos.
  pose proof (Hwf (Pool.staking_vault p)). pose proof (Hwf (Pool.reward_vault p)).
  unfold solvent, reward_debt, scheduled in Hsol. cbv zeta in Hsol.
  destruct (_ =? _); nia.
Qed.

(** A pool initialised with the longest reward period, [u64::MAX]. *)
Definition ex_pool_long : Pool.t :=
  Pool.mk 1 255 false 2 3 4 5 u64_max 0 100 0 0 0 0 0 false [0; 0; 0; 0; 0].
Definition ex_s_long : State := mkState (Some ex_pool_long) ∅ ex_bank0 1 8 7.

Lemma ex_s_long_reachable : reachable ex_s_long.
Proof.
  apply (reach_init 1 255 2 3 4 5 u64_max 100 false); [vm_compute; reflexivity
    | exact ex_bank0_wf | reflexivity | reflexivity].
Qed.

Lemma fund_authorized p funder :
  (funder = p.(Pool.authority) \/ In funder p.(Pool.funders)) ->
  ((funder =? Pool.authority p) || existsb (fun x => x =? funder) (Pool.funders p)) = true.
Proof.
  intros Hf. apply orb_true_iff. destruct Hf as [->|Hin]; [left; apply Z.eqb_refl|right].
  apply existsb_exists. exists funder. split; [exact Hin | apply Z.eqb_refl].
Qed.

(** Past the pause and funder checks, [fund] can only fail by a panic. *)
Lemma fund_Err_Panic p funder from rv amount now e :
  p.(Pool.paused) = false ->
  ((funder =? Pool.authority p) || existsb (fun x => x =? funder) (Pool.funders p)) = true ->
  fund p funder from rv amount now = Err e -> e = Panic.
Proof.
  intros Hpa Hfb H. unfold fund in H. rewrite Hpa, Hfb in H. cbn [negb require res_bind] in H.
  destruct (update_rewards _ _ _ _) as [[q o]|e'] eqn:Hc; cbn [res_bind] in H.
  - unfold res_bind, unwrap in H. repeat case_match; congruence.
  - apply update_rewards_Err in Hc. congruence.
Qed.

(** A successful [fund] ends the new period at [now + reward_duration],
    which is then a [u64]. *)
Lemma fund_end_bound p funder from rv amount now p' xs :
  fund p funder from rv amount now = Ok (p', xs) ->
  now + p.(Pool.reward_duration) <= u64_max.
Proof.
  intros H. unfold fund in H.
  repeat (res_inv; try match goal with
                       | H : (if ?c then _ else _) = Ok _ |- _ => destruct c
                       end);
  match goal with
  | Hc : update_rewards _ _ _ _ = Ok _ |- _ => apply update_rewards_Ok in Hc as (rpt & -> & _)
  end;
  simpl in *; lia.
Qed.

(** C10: [fund] of 0 tokens by the authority or a listed funder on an
    unpaused pool of a reachable state is not rejected for being zero, but
    it does not always succeed: it fails with a panic when the checkpoint
    fails, and when [now + reward_duration] overflows a [u64].  When the
    checkpoint succeeds and [now + reward_duration] is a [u64], it succeeds
    without any transfer; it sets [reward_rate] to 0 if the period has
    ended and to [(reward_duration_end - now) * reward_rate /
    reward_duration] otherwise, never above the old rate, and restarts the
    period: [last_update_time = now] and [reward_duration_end = now +
    reward_duration]. *)
Theorem fund_zero_amount s p funder from :
  reachable s -> s.(st_pool) = Some p -> p.(Pool.paused) = false ->
  (funder = p.(Pool.authority) \/ In funder p.(Pool.funders)) ->
  (forall e, update_rewards p None p.(Pool.total_staked) s.(st_now) = Err e ->
     fund p funder from p.(Pool.reward_vault) 0 s.(st_now) = Err Panic)
  /\ (u64_max < s.(st_now) + p.(Pool.reward_duration) ->
      fund p funder from p.(Pool.reward_vault) 0 s.(st_now) = Err Panic)
  /\ (forall p1 o1,
      update_rewards p None p.(Pool.total_staked) s.(st_now) = Ok (p1, o1) ->
      s.(st_now) + p.(Pool.reward_duration) <= u64_max ->
      exists p', fund p funder from p.(Pool.reward_vault) 0 s.(st_now) = Ok (p', [])
        /\ p'.(Pool.reward_rate)
           = (if p.(Pool.reward_duration_end) <=? s.(st_now) then 0
              else (p.(Pool.reward_duration_end) - s.(st_now)) * p.(Pool.reward_rate)
                   / p.(Pool.reward_duration))
        /\ p'.(Pool.reward_rate) <= p.(Pool.reward_rate)
        /\ p'.(Pool.last_update_time) = s.(st_now)
        /\ p'.(Pool.reward_duration_end) = s.(st_now) + p.(Pool.reward_duration)).
Proof.
  intros Hr Hp Hpa Hf. pose proof (fund_authorized p funder Hf) as Hfb.
  split; [|split].
  - intros e Hc. unfold fund. rewrite Hpa, Hfb. cbn [negb require res_bind]. rewrite Hc.
    cbn [res_bind]. apply update_rewards_Err in Hc. subst e. reflexivity.
  - intros Hover.
    destruct (fund p funder from (Pool.reward_vault p) 0 (st_now s)) as [[p' xs]|e] eqn:F.
    + apply fund_end_bound in F. lia.
    + apply fund_Err_Panic in F; [subst e; reflexivity | exact Hpa | exact Hfb].
  - intros p1 o1 Hc Hd.
  destruct (reachable_inv s Hr) as [Hwf Hinv]. unfold pool_inv in Hinv. rewrite Hp in Hinv.
  pose proof (inv_scheduled_bound _ _ _ _ _ Hwf Hinv) as Hsch.
  pose proof Hinv as (_ & _ & Hlut & Hlutnow & Hdur & Hrate & Hmin & _).
  pose proof (update_rewards_Ok _ _ _ _ _ _ Hc) as (rpt & Hp1 & Hn & _).
  unfold MIN_DURATION in Hmin.
  assert (Ht : u64_try_from (st_now s) = Some (st_now s)).
  { unfold u64_try_from. rewrite (proj2 (Z.leb_le _ _) (proj1 Hn)),
      (proj2 (Z.leb_le _ _) (proj2 Hn)). reflexivity. }
  unfold fund. rewrite Hpa, Hfb. cbn [negb require res_bind]. rewrite Hc.
  cbn [res_bind]. rewrite Ht. cbn [unwrap res_bind]. subst p1. simpl.
  assert (Hd0 : (Pool.reward_duration p =? 0) = false) by (apply Z.eqb_neq; lia).
  assert (Hnd : (st_now s + Pool.reward_duration p <=? u64_max) = true)
    by (apply Z.leb_le; exact Hd).
  destruct (Z.leb_spec (Pool.reward_duration_end p) (st_now s)) as [E|E].
  + unfold checked_div, checked_add. rewrite Hd0. cbn [unwrap res_bind Pool.reward_duration].
    rewrite Hnd. cbn [unwrap res_bind].
    eexists; split; [reflexivity|]. simpl. rewrite Z.div_0_l by lia. lia.
  + assert (Hmul : (Pool.reward_duration_end p - st_now s) * Pool.reward_rate p <= u64_max)
      by nia.
    unfold checked_sub, checked_mul, checked_div, checked_add.
    rewrite (proj2 (Z.leb_le _ _) (Z.lt_le_incl _ _ E)). cbn [unwrap res_bind].
    rewrite (proj2 (Z.leb_le _ _) Hmul). cbn [unwrap res_bind].
    assert (Hadd : 0 + (Pool.reward_duration_end p - st_now s) * Pool.reward_rate p <= u64_max)
      by lia.
    rewrite (proj2 (Z.leb_le _ _) Hadd). cbn [unwrap res_bind].
    rewrite Hd0.
    cbn [unwrap res_bind Pool.reward_duration]. rewrite Hnd. cbn [unwrap res_bind].
    eexists; split; [reflexivity|]. simpl. rewrite Z.add_0_l.
    split; [reflexivity|]. split; [|lia].
    apply Z.div_le_upper_bound; [lia|]. nia.
Qed.

Lemma fund_zero_amount_witness :
  fund ex_pool_long 1 12 5 0 1 = Err Panic
  /\ exists p', fund ex_pool3 1 12 5 0 1500 = Ok (p', [])
    /\ p'.(Pool.reward_rate) = (if 86900 <=? 1500 then 0 else (86900 - 1500) * 10 / 86400)
    /\ p'.(Pool.reward_rate) <= 10
    /\ p'.(Pool.last_update_time) = 1500
    /\ p'.(Pool.reward_duration_end) = 1500 + 86400.
Proof.
  split.
  - exact (proj1 (proj2 (fund_zero_amount ex_s_long ex_pool_long 1 12 ex_s_long_reachable
             eq_refl eq_refl (or_introl eq_refl))) ltac:(vm_compute; reflexivity)).
  - exact (proj2 (proj2 (fund_zero_amount ex_s4 ex_pool3 1 12 ex_s4_reachable eq_refl eq_refl
             (or_introl eq_refl))) ex_pool5 None ltac:(vm_compute; reflexivity)
             ltac:(unfold u64_max; simpl; lia)).
Defined.

(** C10 fails on the reachable state [ex_s_long]: the pool authority's
    [fund] of 0 tokens at time 1 on the unpaused pool panics, since
    [now + reward_duration] overflows a [u64]. *)
Lemma fund_zero_overflow_counterexample :
  reachable ex_s_long /\ ex_s_long.(st_pool) = Some ex_pool_long
  /\ ex_pool_long.(Pool.paused) = false /\ ex_pool_long.(Pool.authority) = 1
  /\ fund ex_pool_long 1 12 5 0 1 = Err Panic.
Proof.
  split; [exact ex_s_long_reachable|].
  split; [reflexivity|]. split; [reflexivity|]. split; [reflexivity|].
  vm_compute. reflexivity.
Qed.

(** * Further properties of the program *)

(** ** The checkpoint at an unchanged clock reading *)
Lemma u64_try_from_in_range x : 0 <= x <= u64_max -> u64_try_from x = Some x.
Proof.
  intros Hx. unfold u64_try_from.
  rewrite (proj2 (Z.leb_le _ _) (proj1 Hx)), (proj2 (Z.leb_le _ _) (proj2 Hx)). reflexivity.
Qed.

Lemma reward_per_token_same ts R t rate :
  (ts <> 0 -> R <= u128_max) -> reward_per_token ts R t t rate = Ok R.
Proof.
  intros HR. unfold reward_per_token.
  destruct (Z.eqb_spec ts 0) as [|Hts]; [reflexivity|].
  unfold checked_sub, checked_mul, checked_div, checked_add.
  rewrite Z.leb_refl. cbn [unwrap res_bind]. rewrite Z.sub_diag, Z.mul_0_l.
  change (0 <=? u128_max) with true. cbn [unwrap res_bind]. rewrite Z.mul_0_l.
  change (0 <=? u128_max) with true. cbn [unwrap res_bind].
  rewrite (proj2 (Z.eqb_neq _ _) Hts). cbn [unwrap res_bind].
  rewrite Z.div_0_l, Z.add_0_r by exact Hts.
  rewrite (proj2 (Z.leb_le _ _) (HR Hts)). reflexivity.
Qed.

Lemma earned_same bal R pend :
  0 <= pend <= u64_max -> earned bal R R pend = Ok pend.
Proof.
  intros Hp. unfold earned, checked_sub, checked_mul, checked_div, checked_add.
  rewrite Z.leb_refl. cbn [unwrap res_bind]. rewrite Z.sub_diag, Z.mul_0_r.
  change (0 <=? u128_max) with true. cbn [unwrap res_bind].
  change (PRECISION =? 0) with false. cbn [unwrap res_bind].
  rewrite Z.div_0_l by discriminate. rewrite Z.add_0_l.
  rewrite (proj2 (Z.leb_le _ _) (ltac:(unfold u128_max, u64_max in *; lia) : pend <= u128_max)).
  cbn [unwrap res_bind]. rewrite u64_try_from_in_range by exact Hp. reflexivity.
Qed.


(** ** The user count and the funder list *)

(** No key other than [Pubkey::default()] appears twice in the funder list. *)
Definition funders_uniq (l : list Pubkey) : Prop :=
  forall i j x, l !! i = Some x -> l !! j = Some x -> x <> default_pubkey -> i = j.

Definition shape_inv (s : State) : Prop :=
  match s.(st_pool) with
  | None => True
  | Some p => p.(Pool.user_stake_count) = Z.of_nat (size s.(st_users))
              /\ funders_uniq p.(Pool.funders)
  end.

Lemma position_lookup k l i : position k l = Some i -> l !! i = Some k.
Proof.
  revert i. induction l as [|x l IH]; simpl; intros i H; [discriminate|].
  destruct (Z.eqb_spec x k) as [->|_]; [injection H as <-; reflexivity|].
  destruct (position k l) as [j|] eqn:E; simpl in H; [|discriminate].
  injection H as <-. apply IH. reflexivity.
Qed.

Lemma existsb_false_lookup f l j :
  existsb (fun x => x =? f) l = false -> l !! j <> Some f.
Proof.
  revert j. induction l as [|x l IH]; simpl; intros j H; [discriminate|].
  apply orb_false_iff in H as [Hx Hl]. destruct j as [|j]; simpl.
  - intros [= ->]. rewrite Z.eqb_refl in Hx. discriminate.
  - apply IH, Hl.
Qed.

Lemma lookup_existsb_false f l :
  (forall j, l !! j <> Some f) -> existsb (fun x => x =? f) l = false.
Proof.
  induction l as [|x l IH]; simpl; intros H; [reflexivity|].
  apply orb_false_iff. split.
  - apply Z.eqb_neq. intros ->. apply (H O). reflexivity.
  - apply IH. intros j. apply (H (S j)).
Qed.

Lemma position_None k l : existsb (fun x => x =? k) l = false -> position k l = None.
Proof.
  induction l as [|x l IH]; simpl; intros H; [reflexivity|].
  apply orb_false_iff in H as [Hx Hl]. rewrite Hx, IH by exact Hl. reflexivity.
Qed.

Lemma position_insert_fresh f l i :
  (forall j, l !! j <> Some f) -> (i < length l)%nat -> position f (<[i := f]> l) = Some i.
Proof.
  revert i. induction l as [|x l IH]; simpl; intros i Hf Hi; [lia|].
  destruct i as [|i]; simpl.
  - rewrite Z.eqb_refl. reflexivity.
  - assert (Hx : (x =? f) = false) by (apply Z.eqb_neq; intros ->; apply (Hf O); reflexivity).
    rewrite Hx, IH; [reflexivity| |lia]. intros j. apply (Hf (S j)).
Qed.

Lemma position_lt k l i : position k l = Some i -> (i < length l)%nat.
Proof. intros H. apply lookup_lt_Some with k. apply position_lookup, H. Qed.

Lemma funders_uniq_insert_new l i f :
  funders_uniq l -> (forall j, l !! j <> Some f) -> funders_uniq (<[i := f]> l).
Proof.
  intros H Hf a b x Ha Hb Hx.
  apply list_lookup_insert_Some in Ha as [(-> & <- & _)|(Hia & Ha)];
  apply list_lookup_insert_Some in Hb as [(-> & Heq & _)|(Hib & Hb)].
  - reflexivity.
  - exfalso. exact (Hf b Hb).
  - subst x. exfalso. exact (Hf a Ha).
  - exact (H a b x Ha Hb Hx).
Qed.

Lemma funders_uniq_insert_default l i :
  funders_uniq l -> funders_uniq (<[i := default_pubkey]> l).
Proof.
  intros H a b x Ha Hb Hx.
  apply list_lookup_insert_Some in Ha as [(-> & <- & _)|(Hia & Ha)]; [contradiction|].
  apply list_lookup_insert_Some in Hb as [(-> & <- & _)|(Hib & Hb)]; [contradiction|].
  exact (H a b x Ha Hb Hx).
Qed.

(** After [deauthorize_funder] a key other than the default one is gone
    from the list, provided it was there only once. *)
Lemma funders_uniq_removed l f i :
  funders_uniq l -> position f l = Some i -> f <> default_pubkey ->
  forall j, <[i := default_pubkey]> l !! j <> Some f.
Proof.
  intros H Hpos Hf j Hj. apply position_lookup in Hpos.
  apply list_lookup_insert_Some in Hj as [(-> & <- & _)|(Hij & Hj)]; [contradiction|].
  exact (Hij (H i j f Hpos Hj Hf)).
Qed.

Lemma update_rewards_shape p ou ts now p1 ou1 :
  update_rewards p ou ts now = Ok (p1, ou1) ->
  p1.(Pool.user_stake_count) = p.(Pool.user_stake_count)
  /\ p1.(Pool.funders) = p.(Pool.funders).
Proof. intros H. apply update_rewards_Ok in H as (rpt & -> & _). simpl. auto. Qed.

Ltac shape_keep_tac :=
  repeat (res_inv; try match goal with
                       | H : (if ?c then _ else _) = Ok _ |- _ => destruct c
                       end);
  match goal with
  | Hc : update_rewards _ _ _ _ = Ok _ |- _ => apply update_rewards_shape in Hc as [? ?]
  end;
  simpl; split; congruence.

Lemma stake_shape p u from sv amount now p' u' xs :
  stake p u from sv amount now = Ok (p', u', xs) ->
  p'.(Pool.user_stake_count) = p.(Pool.user_stake_count) /\ p'.(Pool.funders) = p.(Pool.funders).
Proof. unfold stake. intros H. shape_keep_tac. Qed.

Lemma unstake_shape p u to sv ps amount now p' u' xs :
  unstake p u to sv ps amount now = Ok (p', u', xs) ->
  p'.(Pool.user_stake_count) = p.(Pool.user_stake_count) /\ p'.(Pool.funders) = p.(Pool.funders).
Proof. unfold unstake. intros H. shape_keep_tac. Qed.

Lemma fund_shape p f from rv amount now p' xs :
  fund p f from rv amount now = Ok (p', xs) ->
  p'.(Pool.user_stake_count) = p.(Pool.user_stake_count) /\ p'.(Pool.funders) = p.(Pool.funders).
Proof. unfold fund. intros H. shape_keep_tac. Qed.

Lemma claim_shape p u rv to ps v now p' u' xs :
  claim p u rv to ps v now = Ok (p', u', xs) ->
  p'.(Pool.user_stake_count) = p.(Pool.user_stake_count) /\ p'.(Pool.funders) = p.(Pool.funders).
Proof. unfold claim. intros H. shape_keep_tac. Qed.

Lemma shape_step s s' : shape_inv s -> step s s' -> shape_inv s'.
Proof.
  intros Hsh Hs. revert Hsh.
  destruct Hs as [s p o bump p' u Hp Hne H | s p p' Hp H | s p p' Hp H
                 | s p o u f a p' u' xs b' Hp Hk Ha H Hrun
                 | s p o u t a p' u' xs b' Hp Hk Ha H Hrun
                 | s p f p' Hp H | s p f p' Hp H
                 | s p fu f a p' xs b' Hp Hne Ha H Hrun
                 | s p o u t p' u' xs b' Hp Hk H Hrun
                 | s p o u p' Hp Hk H
                 | s p sr rr xs b' Hp H Hrun
                 | s n Hle | s b' Henv];
    unfold shape_inv; simpl; intros Hsh; try exact I; try exact Hsh;
    rewrite Hp in Hsh; destruct Hsh as (Hc & Hu).
  - unfold create_user in H. res_inv.
    match goal with Hx : bool_decide _ = false |- _ =>
      rewrite bool_decide_eq_false in Hx; apply eq_None_not_Some in Hx;
      simpl; rewrite map_size_insert_None by exact Hx end.
    split; [lia | exact Hu].
  - unfold pause in H. res_inv. simpl. auto.
  - unfold unpause in H. res_inv. simpl. auto.
  - apply stake_shape in H as [H1 H2].
    rewrite map_size_insert_Some by (rewrite Hk; eauto). rewrite H1, H2. auto.
  - apply unstake_shape in H as [H1 H2].
    rewrite map_size_insert_Some by (rewrite Hk; eauto). rewrite H1, H2. auto.
  - unfold authorize_funder in H. res_inv.
    destruct (position _ _) as [idx|]; [res_inv | discriminate]. simpl. split; [exact Hc|].
    apply funders_uniq_insert_new; [exact Hu|]. intros j. apply existsb_false_lookup.
    destruct (existsb _ _); [discriminate | reflexivity].
  - unfold deauthorize_funder in H. res_inv.
    destruct (position _ _) as [idx|]; [res_inv | discriminate]. simpl. split; [exact Hc|].
    apply funders_uniq_insert_default, Hu.
  - apply fund_shape in H as [H1 H2]. rewrite H1, H2. auto.
  - apply claim_shape in H as [H1 H2].
    rewrite map_size_insert_Some by (rewrite Hk; eauto). rewrite H1, H2. auto.
  - unfold close_user in H. res_inv. simpl.
    rewrite map_size_delete_Some by (rewrite Hk; eauto). split; [|exact Hu].
    assert (size (st_users s) <> O) by (apply map_size_ne_0_lookup_2 with o; rewrite Hk; eauto).
    lia.
Qed.

Lemma shape_reachable s : reachable s -> shape_inv s.
Proof.
  induction 1 as [authority nonce sm sv rm rv d lock nt p b now key ps Hinit Hwf Hsv Hrv
                 | s s' _ IH Hs].
  - unfold initialize_pool in Hinit. res_inv. unfold shape_inv. simpl.
    rewrite map_size_empty. split; [reflexivity|].
    intros i j x Hi _ Hx.
    do 5 (destruct i as [|i]; [injection Hi as <-; contradiction|]). discriminate Hi.
  - exact (shape_step s s' IH Hs).
Qed.

(** ** Reward payouts are covered *)

(** An account whose checkpoint is current is owed exactly its pending
    reward, which the reward vault covers. *)
Lemma inv_pending_le_reward_vault p m b now ps k u :
  pool_inv_at p m b now ps -> m !! k = Some u ->
  u.(User.reward_per_token_complete) = p.(Pool.reward_per_token_stored) ->
  u.(User.reward_per_token_pending) <= b.(balance) p.(Pool.reward_vault).
Proof.
  intros Hinv Hk Hc. pose proof (inv_total_le _ _ _ _ _ Hinv) as [Ht _].
  destruct Hinv as (_ & Hus & Hlut & _ & _ & Hrate & _ & _ & _ & _ & Hsol).
  pose proof PRECISION_pos as HP.
  assert (Hown : owed p.(Pool.reward_per_token_stored) u = PRECISION * u.(User.reward_per_token_pending))
    by (unfold owed; rewrite Hc; lia).
  assert (Hmem : owed p.(Pool.reward_per_token_stored) u
                 <= user_sum (owed p.(Pool.reward_per_token_stored)) m).
  { apply (user_sum_member_le _ m k u); [|exact Hk].
    intros k' u' Hk'. destruct (Hus k' u' Hk') as (? & ? & ? & _). unfold owed. nia. }
  assert (Hsch : 0 <= scheduled p)
    by (unfold scheduled; apply Z.mul_nonneg_nonneg; [apply Z.mul_nonneg_nonneg|]; lia).
  unfold solvent, reward_debt in Hsol. cbv zeta in Hsol.
  destruct (Z.eqb_spec p.(Pool.staking_vault) p.(Pool.reward_vault)) as [E|E].
  - rewrite E in Hsol. nia.
  - destruct Hsol as [_ Hsol]. nia.
Qed.

(** ** Examples for the properties below *)

(** The authority funds nothing at time 500 (which starts a one-day
    period), the clock passes the end of the period and the pool is
    paused: the pool can then be closed. *)
Definition ex_pool_f : Pool.t :=
  Pool.set_reward_duration_end 86900 (Pool.set_last_update_time 500 ex_pool0).
Definition ex_s_f : State := with_accounts ex_s0 (Some ex_pool_f) ∅ ex_bank0.
Definition ex_s_ft : State := mkState (Some ex_pool_f) ∅ ex_bank0 90000 8 7.
Definition ex_pool_fp : Pool.t := Pool.set_paused true ex_pool_f.
Definition ex_s_fp : State := with_accounts ex_s_ft (Some ex_pool_fp) ∅ ex_bank0.

(** Key 6 is made a funder of the fresh pool. *)
Definition ex_pool_auth : Pool.t := Pool.set_funders [6; 0; 0; 0; 0] ex_pool0.
Definition ex_s_auth : State := with_accounts ex_s0 (Some ex_pool_auth) ∅ ex_bank0.

Lemma ex_s_fp_reachable : reachable ex_s_fp.
Proof.
  eapply reach_step; [|apply (step_pause ex_s_ft ex_pool_f); vm_compute; reflexivity].
  eapply reach_step; [|apply (step_tick ex_s_f 90000); simpl; lia].
  eapply reach_step; [exact ex_s0_reachable|].
  apply (step_fund ex_s0 ex_pool0 1 12 0 ex_pool_f []);
    [reflexivity | simpl; lia | unfold u64_max; lia | vm_compute; reflexivity | reflexivity].
Qed.

Lemma ex_s_auth_reachable : reachable ex_s_auth.
Proof.
  eapply reach_step; [exact ex_s0_reachable|].
  apply (step_authorize_funder ex_s0 ex_pool0 6); [reflexivity | vm_compute; reflexivity].
Qed.

(** ** Properties of the instructions *)

(** The checkpoint is idempotent: once [update_rewards] has succeeded,
    running it again with the same total and clock reading on its result
    succeeds and changes neither the pool nor the user. *)
Lemma update_rewards_idempotent p ou ts now p1 ou1 :
  update_rewards p ou ts now = Ok (p1, ou1) ->
  update_rewards p1 ou1 ts now = Ok (p1, ou1).
Proof.
  intros H. apply update_rewards_Ok in H as (rpt & -> & Hn & _ & Hb & Hu).
  unfold update_rewards, last_time_reward_applicable.
  rewrite u64_try_from_in_range by exact Hn. cbn [unwrap res_bind].
  cbn [Pool.reward_duration_end Pool.set_last_update_time Pool.set_reward_per_token_stored
       Pool.reward_per_token_stored Pool.last_update_time Pool.reward_rate].
  replace (Z.min now (Z.min now (Pool.reward_duration_end p)))
    with (Z.min now (Pool.reward_duration_end p)) by lia.
  rewrite reward_per_token_same by (intros Hts; apply (Hb Hts)).
  cbn [res_bind].
  destruct ou as [u|], ou1 as [u1|]; try contradiction; [|reflexivity].
  destruct Hu as (-> & _ & Hpend).
  cbn [User.set_reward_per_token_complete User.set_reward_per_token_pending
       User.balance_staked User.reward_per_token_complete User.reward_per_token_pending
       Pool.set_last_update_time Pool.set_reward_per_token_stored
       Pool.reward_per_token_stored].
  rewrite earned_same by exact Hpend. reflexivity.
Qed.

Lemma update_rewards_idempotent_witness :
  update_rewards example_pool_checkpointed (Some example_user_checkpointed) 50 400
    = Ok (example_pool_checkpointed, Some example_user_checkpointed).
Proof.
  apply (update_rewards_idempotent example_pool (Some example_user) 50 400).
  vm_compute. reflexivity.
Defined.

(** In every reachable state with an open pool, the staking vault holds at
    least [total_staked] tokens. *)
Theorem staking_vault_covers_total_staked s p :
  reachable s -> s.(st_pool) = Some p ->
  0 <= p.(Pool.total_staked) <= s.(st_bank).(balance) p.(Pool.staking_vault).
Proof.
  intros Hr Hp. destruct (reachable_inv s Hr) as [_ Hinv].
  unfold pool_inv in Hinv. rewrite Hp in Hinv. exact (inv_total_le _ _ _ _ _ Hinv).
Qed.

Lemma staking_vault_covers_total_staked_witness :
  ex_s5.(st_pool) = Some ex_pool5 /\
  0 <= ex_pool5.(Pool.total_staked) <= ex_s5.(st_bank).(balance) ex_pool5.(Pool.staking_vault).
Proof.
  split; [reflexivity|].
  apply (staking_vault_covers_total_staked ex_s5 ex_pool5); [exact ex_s5_reachable | reflexivity].
Defined.

(** In every reachable state, a successful [claim] pays the whole pending
    reward computed by its checkpoint: the reward vault always holds enough,
    so the payout is never cut down to the vault balance. *)
Theorem claim_pays_full_pending s p k u to p1 u1 xs :
  reachable s -> s.(st_pool) = Some p -> s.(st_users) !! k = Some u ->
  claim p u p.(Pool.reward_vault) to s.(st_pool_signer)
    (s.(st_bank).(balance) p.(Pool.reward_vault)) s.(st_now) = Ok (p1, u1, xs) ->
  exists u', update_rewards p (Some u) p.(Pool.total_staked) s.(st_now) = Ok (p1, Some u')
    /\ u1 = User.set_reward_per_token_pending 0 u'
    /\ xs = (if 0 <? u'.(User.reward_per_token_pending)
             then [Transfer p.(Pool.reward_vault) to u'.(User.reward_per_token_pending)
                     s.(st_pool_signer)]
             else []).
Proof.
  intros Hr Hp Hk H. destruct (reachable_inv s Hr) as [_ Hinv].
  unfold pool_inv in Hinv. rewrite Hp in Hinv.
  unfold claim in H. res_inv.
  match goal with
  | Hc : update_rewards _ _ _ _ = Ok (?q, ?o) |- _ =>
      pose proof (inv_checkpoint _ _ _ _ _ _ _ _ Hinv Hc) as (HR & _ & _ & Hu);
      destruct o as [u'|]; [|contradiction]; exists u'
  end.
  destruct (Hu k Hk) as (Hinv1 & Hc1 & _).
  pose proof (inv_pending_le_reward_vault _ _ _ _ _ k u' Hinv1 (lookup_insert_eq _ _ _) Hc1) as Hle.
  destruct HR as (R' & Hp1 & _). rewrite Hp1 in Hle. simpl in Hle.
  cbn [default] in H. unfold id in H.
  destruct (0 <? User.reward_per_token_pending u') eqn:E.
  - rewrite (proj2 (Z.ltb_ge _ _) Hle), E in H. injection H as <- <- <-. split; [assumption | split; reflexivity].
  - injection H as <- <- <-. split; [assumption | split; [|reflexivity]].
    destruct (Hu k Hk) as (_ & _ & _ & _ & _ & Hpend & _). apply Z.ltb_ge in E.
    destruct u'; cbn in *. f_equal. lia.
Qed.

Lemma claim_pays_full_pending_witness :
  exists u', update_rewards ex_pool3 (Some ex_user2) ex_pool3.(Pool.total_staked) ex_s4.(st_now)
               = Ok (ex_pool5, Some u')
    /\ ex_user5 = User.set_reward_per_token_pending 0 u'
    /\ [Transfer 5 11 10000 7]
       = (if 0 <? u'.(User.reward_per_token_pending)
          then [Transfer ex_pool3.(Pool.reward_vault) 11 u'.(User.reward_per_token_pending)
                  ex_s4.(st_pool_signer)]
          else []).
Proof.
  apply (claim_pays_full_pending ex_s4 ex_pool3 10 ex_user2 11 ex_pool5 ex_user5
           [Transfer 5 11 10000 7]);
    [exact ex_s4_reachable | reflexivity | reflexivity | vm_compute; reflexivity].
Defined.

(** In every reachable state with an open pool, [user_stake_count] is the
    number of open user accounts of the pool. *)
Theorem user_stake_count_eq_open_accounts s p :
  reachable s -> s.(st_pool) = Some p ->
  p.(Pool.user_stake_count) = Z.of_nat (size s.(st_users)).
Proof.
  intros Hr Hp. pose proof (shape_reachable s Hr) as Hsh.
  unfold shape_inv in Hsh. rewrite Hp in Hsh. exact (proj1 Hsh).
Qed.

Lemma user_stake_count_eq_open_accounts_witness :
  ex_s5.(st_pool) = Some ex_pool5 /\
  ex_pool5.(Pool.user_stake_count) = Z.of_nat (size ex_s5.(st_users)).
Proof.
  split; [reflexivity|].
  apply (user_stake_count_eq_open_accounts ex_s5 ex_pool5); [exact ex_s5_reachable | reflexivity].
Defined.

(** In every reachable state, [close_user] on an open account with nothing
    staked and no pending reward succeeds: the [checked_sub(1).unwrap()]
    of [user_stake_count] never panics. *)
Theorem close_user_no_underflow s p k u :
  reachable s -> s.(st_pool) = Some p -> s.(st_users) !! k = Some u ->
  u.(User.balance_staked) = 0 -> u.(User.reward_per_token_pending) = 0 ->
  close_user p u = Ok (Pool.set_user_stake_count (p.(Pool.user_stake_count) - 1) p).
Proof.
  intros Hr Hp Hk Hb Hpend. pose proof (shape_reachable s Hr) as Hsh.
  unfold shape_inv in Hsh. rewrite Hp in Hsh. destruct Hsh as [Hc _].
  assert (size s.(st_users) <> O) by (apply map_size_ne_0_lookup_2 with k; rewrite Hk; eauto).
  unfold close_user. rewrite Hb, Hpend. cbn [require res_bind Z.eqb].
  assert (H1 : 1 <= p.(Pool.user_stake_count)) by lia.
  unfold checked_sub. rewrite (proj2 (Z.leb_le _ _) H1). reflexivity.
Qed.

Lemma close_user_no_underflow_witness :
  close_user ex_pool1 ex_user1 = Ok (Pool.set_user_stake_count (1 - 1) ex_pool1).
Proof.
  apply (close_user_no_underflow ex_s1 ex_pool1 10 ex_user1);
    [exact ex_s1_reachable | reflexivity | reflexivity | reflexivity | reflexivity].
Defined.

(** In every reachable state, [close_pool] succeeds only when no user
    account of the pool is open any more. *)
Theorem close_pool_no_open_users s p sr rr xs :
  reachable s -> s.(st_pool) = Some p ->
  close_pool p s.(st_bank) sr rr s.(st_pool_signer) s.(st_now) = Ok xs ->
  s.(st_users) = ∅.
Proof.
  intros Hr Hp H. pose proof (shape_reachable s Hr) as Hsh.
  unfold shape_inv in Hsh. rewrite Hp in Hsh. destruct Hsh as [Hc _].
  unfold close_pool in H. res_inv.
  apply map_size_empty_iff. lia.
Qed.

Lemma close_pool_no_open_users_witness :
  ex_s_fp.(st_users) = ∅.
Proof.
  apply (close_pool_no_open_users ex_s_fp ex_pool_fp 11 11 [CloseAccount 3 7; CloseAccount 5 7]);
    [exact ex_s_fp_reachable | reflexivity | vm_compute; reflexivity].
Defined.

(** [deauthorize_funder] undoes [authorize_funder]: when adding [f]
    succeeds, removing [f] from the resulting pool succeeds and gives back
    the original pool. *)
Theorem authorize_deauthorize_round_trip p f p' :
  authorize_funder p f = Ok p' -> deauthorize_funder p' f = Ok p.
Proof.
  intros H. unfold authorize_funder in H. res_inv.
  destruct (position default_pubkey (Pool.funders p)) as [idx|] eqn:Epos; [|discriminate].
  injection H as <-. unfold deauthorize_funder. cbn [Pool.set_funders Pool.authority Pool.funders].
  rewrite (proj2 (Z.eqb_neq _ _) Ha). cbn [negb require res_bind].
  rewrite position_insert_fresh.
  - rewrite list_insert_insert_eq.
    rewrite (list_insert_id (Pool.funders p) idx default_pubkey)
      by (apply position_lookup; exact Epos).
    destruct p; reflexivity.
  - intros j. apply existsb_false_lookup. assumption.
  - exact (position_lt _ _ _ Epos).
Qed.

Lemma authorize_deauthorize_round_trip_witness :
  deauthorize_funder ex_pool_auth 6 = Ok ex_pool0.
Proof.
  apply (authorize_deauthorize_round_trip ex_pool0 6 ex_pool_auth). vm_compute. reflexivity.
Defined.

(** [Pubkey::default()], the marker of a free funder slot, can never be
    added as a funder, and "removing" it never changes the pool. *)
Theorem default_pubkey_funder_no_effect p :
  (forall p', authorize_funder p default_pubkey <> Ok p')
  /\ (forall p', deauthorize_funder p default_pubkey = Ok p' -> p' = p).
Proof.
  split.
  - intros p' H. unfold authorize_funder in H. res_inv.
    rewrite position_None in H by assumption. discriminate.
  - intros p' H. unfold deauthorize_funder in H. res_inv.
    destruct (position default_pubkey (Pool.funders p)) as [idx|] eqn:Epos; [|discriminate].
    injection H as <-. rewrite list_insert_id by (apply position_lookup; exact Epos).
    destruct p; reflexivity.
Qed.

(** In every reachable state, once a funder other than the default key
    has been deauthorized it can no longer fund the pool: [fund] by it
    fails, with [PoolPaused] on a paused pool and otherwise on the
    funder constraint of [Fund]. *)
Theorem deauthorize_funder_revokes s p f p' from rv amount now :
  reachable s -> s.(st_pool) = Some p -> f <> default_pubkey ->
  deauthorize_funder p f = Ok p' ->
  fund p' f from rv amount now = Err (if p.(Pool.paused) then Program PoolPaused else ConstraintRaw).
Proof.
  intros Hr Hp Hf H. pose proof (shape_reachable s Hr) as Hsh.
  unfold shape_inv in Hsh. rewrite Hp in Hsh. destruct Hsh as [_ Hu].
  unfold deauthorize_funder in H. res_inv.
  destruct (position f (Pool.funders p)) as [idx|] eqn:Epos; [|discriminate].
  injection H as <-. unfold fund. cbn [Pool.set_funders Pool.paused Pool.authority Pool.funders].
  destruct (Pool.paused p); [reflexivity|]. cbn [negb require res_bind].
  rewrite (proj2 (Z.eqb_neq _ _) Ha).
  rewrite lookup_existsb_false by exact (funders_uniq_removed _ _ _ Hu Epos Hf).
  reflexivity.
Qed.

Lemma deauthorize_funder_revokes_witness :
  fund (Pool.set_funders [0; 0; 0; 0; 0] ex_pool_auth) 6 12 5 100 600 = Err ConstraintRaw.
Proof.
  apply (deauthorize_funder_revokes ex_s_auth ex_pool_auth 6);
    [exact ex_s_auth_reachable | reflexivity | discriminate | vm_compute; reflexivity].
Defined.

Lemma get_tier_loop_bounds i l a :
  i <= get_tier_loop i l a <= i + Z.of_nat (length l).
Proof.
  revert i. induction l as [|x l IH]; intros i; simpl; [lia|].
  destruct (a <? x); [lia|]. specialize (IH (i + 1)). lia.
Qed.

Lemma get_tier_loop_mono i l a b :
  a <= b -> get_tier_loop i l a <= get_tier_loop i l b.
Proof.
  intros Hab. revert i. induction l as [|x l IH]; intros i; simpl; [lia|].
  destruct (Z.ltb_spec a x), (Z.ltb_spec b x); try lia.
  - pose proof (get_tier_loop_bounds (i + 1) l b). lia.
  - apply IH.
Qed.

(** For any list of thresholds short enough for the [as u8] casts to be
    exact, the tier [get_tier] computes lies between 0 and the number of
    thresholds, and it never decreases when the amount grows. *)
Theorem get_tier_monotone l a b :
  (length l <= 255)%nat -> a <= b ->
  0 <= get_tier_loop 0 l a <= get_tier_loop 0 l b
  /\ get_tier_loop 0 l b <= Z.of_nat (length l).
Proof.
  intros _ Hab. pose proof (get_tier_loop_bounds 0 l a). pose proof (get_tier_loop_bounds 0 l b).
  pose proof (get_tier_loop_mono 0 l a b Hab). lia.
Qed.

Lemma get_tier_monotone_witness :
  0 <= get_tier_loop 0 TIER_INFO 150 <= get_tier_loop 0 TIER_INFO 5000
  /\ get_tier_loop 0 TIER_INFO 5000 <= Z.of_nat (length TIER_INFO).
Proof. apply get_tier_monotone; [simpl; lia | lia]. Defined.

Lemma wrapping_sub_add64 t a :
  0 <= t <= u64_max -> wrapping_sub64 (wrapping_add64 t a) a = t.
Proof.
  intros Ht. unfold wrapping_sub64, wrapping_add64.
  rewrite Zminus_mod_idemp_l. replace (t + a - a) with t by lia.
  apply Z.mod_small. unfold u64_max in Ht. lia.
Qed.

(** Unstaking what was just staked restores [total_staked] and the staked
    balance, whatever happened to the rewards meanwhile: [stake] moves
    [amount] from the staker's account into the staking vault, signed by
    the user's owner, and [unstake] moves it back out, signed by the
    pool's PDA.  This holds for any [total_staked] below [2^64]. *)
Theorem stake_unstake_round_trip p u from to sv ps amount now now' p1 u1 xs1 p2 u2 xs2 :
  0 <= p.(Pool.total_staked) <= u64_max ->
  stake p u from sv amount now = Ok (p1, u1, xs1) ->
  unstake p1 u1 to sv ps amount now' = Ok (p2, u2, xs2) ->
  p2.(Pool.total_staked) = p.(Pool.total_staked)
  /\ u2.(User.balance_staked) = u.(User.balance_staked)
  /\ xs1 = [Transfer from sv amount u.(User.owner)]
  /\ xs2 = [Transfer sv to amount ps].
Proof.
  intros Ht H1 H2. unfold stake in H1. res_inv.
  match goal with
  | Hc : update_rewards _ _ _ _ = Ok (_, ?o) |- _ =>
      apply update_rewards_Ok in Hc as (rpt & -> & _ & _ & _ & Hu);
      destruct o as [u'|]; cbn in Hu; [destruct Hu as [-> _]|contradiction]
  end.
  unfold unstake in H2. res_inv.
  match goal with
  | Hc : update_rewards _ _ _ _ = Ok (_, ?o) |- _ =>
      apply update_rewards_Ok in Hc as (rpt' & -> & _ & _ & _ & Hu');
      destruct o as [u''|]; cbn in Hu'; [destruct Hu' as [-> _]|contradiction]
  end.
  cbn in *. destruct (Pool.no_tier p); cbn in *;
    (split; [apply wrapping_sub_add64, Ht | split; [lia | split; reflexivity]]).
Qed.

Lemma stake_unstake_round_trip_witness :
  (Pool.set_total_staked 0 ex_pool2).(Pool.total_staked) = ex_pool1.(Pool.total_staked)
  /\ (User.mk 8 10 0 0 0 600 0 254).(User.balance_staked) = ex_user1.(User.balance_staked)
  /\ [Transfer 11 3 20 10] = [Transfer 11 3 20 ex_user1.(User.owner)]
  /\ [Transfer 3 11 20 7] = [Transfer 3 11 20 7].
Proof.
  apply (stake_unstake_round_trip ex_pool1 ex_user1 11 11 3 7 20 500 600 ex_pool2 ex_user2);
    [vm_compute; split; discriminate | vm_compute; reflexivity | vm_compute; reflexivity].
Defined.

(** [unpause] undoes a successful [pause]. *)
Theorem pause_unpause_round_trip p now p' :
  pause p now = Ok p' -> unpause p' = Ok p.
Proof.
  intros H. unfold pause in H. res_inv. unfold unpause. simpl.
  destruct p; simpl in *; subst; reflexivity.
Qed.

Lemma pause_unpause_round_trip_witness : unpause ex_pool_fp = Ok ex_pool_f.
Proof. apply (pause_unpause_round_trip ex_pool_f 90000). vm_compute. reflexivity. Defined.

(** A user account just created by [create_user] can be closed at once
    with [close_user], which gives back the pool as it was before, for any
    [user_stake_count] the [u32] field can hold. *)
Theorem create_close_user_round_trip p user_exists pool_key owner bump p' u :
  0 <= p.(Pool.user_stake_count) ->
  create_user p user_exists pool_key owner bump = Ok (p', u) ->
  close_user p' u = Ok p.
Proof.
  intros Hc H. unfold create_user in H. res_inv. unfold close_user. simpl.
  assert (Hge : 1 <= Pool.user_stake_count p + 1) by lia.
  unfold checked_sub. rewrite (proj2 (Z.leb_le _ _) Hge). cbn [unwrap res_bind].
  replace (Pool.user_stake_count p + 1 - 1) with (Pool.user_stake_count p) by lia.
  destruct p; reflexivity.
Qed.

Lemma create_close_user_round_trip_witness : close_user ex_pool1 ex_user1 = Ok ex_pool0.
Proof.
  apply (create_close_user_round_trip ex_pool0 false 8 10 254); [simpl; lia | vm_compute; reflexivity].
Defined.

(** The configuration of a pool: the fields set by [initialize_pool] that
    no instruction writes. *)
Definition pool_config (p : Pool.t) :=
  (p.(Pool.authority), p.(Pool.nonce), p.(Pool.staking_mint), p.(Pool.staking_vault),
   p.(Pool.reward_mint), p.(Pool.reward_vault), p.(Pool.reward_duration),
   p.(Pool.lock_period), p.(Pool.no_tier)).

Lemma update_rewards_config p ou ts now p1 ou1 :
  update_rewards p ou ts now = Ok (p1, ou1) -> pool_config p1 = pool_config p.
Proof. intros H. apply update_rewards_Ok in H as (rpt & -> & _). reflexivity. Qed.

Ltac config_tac :=
  repeat (res_inv; try match goal with
                       | H : (if ?c then _ else _) = Ok _ |- _ => destruct c
                       end);
  try match goal with
      | Hc : update_rewards _ _ _ _ = Ok _ |- _ => apply update_rewards_config in Hc
      end;
  unfold pool_config in *; simpl in *; congruence.

(** No instruction changes the configuration of an open pool: its
    authority, PDA nonce, mints, vaults, reward duration, lock period and
    [no_tier] flag stay as [initialize_pool] set them. *)
Theorem step_keeps_pool_config s s' p p' :
  step s s' -> s.(st_pool) = Some p -> s'.(st_pool) = Some p' ->
  pool_config p' = pool_config p.
Proof.
  intros Hs. destruct Hs as [s q o bump q' u Hq Hne H | s q q' Hq H | s q q' Hq H
                 | s q o u f a q' u' xs b' Hq Hk Ha H Hrun
                 | s q o u t a q' u' xs b' Hq Hk Ha H Hrun
                 | s q f q' Hq H | s q f q' Hq H
                 | s q fu f a q' xs b' Hq Hne Ha H Hrun
                 | s q o u t q' u' xs b' Hq Hk H Hrun
                 | s q o u q' Hq Hk H
                 | s q sr rr xs b' Hq H Hrun
                 | s n Hle | s b' Henv];
    intros E E'; simpl in *;
    try (rewrite E in Hq; injection Hq as <-; injection E' as <-);
    try (rewrite E in E'; injection E' as <-; reflexivity);
    try discriminate.
  - unfold create_user in H. config_tac.
  - unfold pause in H. config_tac.
  - unfold unpause in H. config_tac.
  - unfold stake in H. config_tac.
  - unfold unstake in H. config_tac.
  - unfold authorize_funder in H. res_inv.
    destruct (position _ _); [res_inv; reflexivity | discriminate].
  - unfold deauthorize_funder in H. res_inv.
    destruct (position _ _); [res_inv; reflexivity | discriminate].
  - unfold fund in H. config_tac.
  - unfold claim in H. config_tac.
  - unfold close_user in H. config_tac.
Qed.

Lemma step_keeps_pool_config_witness : pool_config ex_pool2 = pool_config ex_pool1.
Proof. apply (step_keeps_pool_config ex_s1 ex_s2); [exact ex_step12 | reflexivity | reflexivity]. Defined.
